(** * Visual Studio Builder: path resolver, condition evaluator, wizard store

    A shallow embedding of the TypeScript sources of the runtime and of the
    SDK, and the properties of the specification proved over it.

    - [JsString]: the string operations the sources call
      ([split], [includes], [startsWith]).
    - [Js]: JavaScript values.  Objects and arrays live in a heap of cells
      and are referred to by location, so that the in-place writes of
      [setJsonPath] and [setByPath] and the sharing between the input tree
      and the returned tree are explicit.
    - [JsonPath]: [apps/runtime-ui/src/runtime/jsonpath/index.ts].
    - [SdkPath]: the dot-path helpers of [packages/sdk].
    - [Conditions]: [evaluateCondition] of the SDK.
    - [Routing], [WizardStore]: linear routing and the zustand store.
    - [PageLoader]: [parsePageRef].
    - [Definitions]: the definition store and publish pipeline, which the
      sources only call over HTTP; modelled from the specification.

    The second half of the file proves the properties, module by module.

    Numbers are modelled by [Z] (the integers a double represents exactly)
    and strings by sequences of 8-bit characters standing for code units. *)

From Stdlib Require Import ZArith Lia Ascii String.
From stdpp Require Import base option list strings gmap pretty.

(** ** Strings *)

Module JsString.

(** [s.startsWith(p)]. *)
Fixpoint startsWith (p s : string) : bool :=
  match p, s with
  | EmptyString, _ => true
  | String _ _, EmptyString => false
  | String a p', String b s' => Ascii.eqb a b && startsWith p' s'
  end.

(** [s.includes(needle)]: [needle] occurs somewhere in [s]. *)
Fixpoint includes (needle s : string) : bool :=
  startsWith needle s ||
  match s with
  | EmptyString => false
  | String _ rest => includes needle rest
  end.

(** [s.split(sep)] for a one-character separator: never empty, and the
    empty string splits into one empty segment. *)
Fixpoint split (sep : ascii) (s : string) : list string :=
  match s with
  | EmptyString => [EmptyString]
  | String c rest =>
      if Ascii.eqb c sep then EmptyString :: split sep rest
      else match split sep rest with
           | seg :: segs => String c seg :: segs
           | [] => [String c EmptyString]
           end
  end.

(** Some character of [s] satisfies [p] (a character-class regex). *)
Fixpoint any_char (p : ascii -> bool) (s : string) : bool :=
  match s with
  | EmptyString => false
  | String c rest => p c || any_char p rest
  end.

(** Number of occurrences of the character [c] in [s]. *)
Fixpoint count_char (c : ascii) (s : string) : nat :=
  match s with
  | EmptyString => 0
  | String d rest => (if Ascii.eqb d c then 1 else 0) + count_char c rest
  end.

(** The characters of a string, one string per character. *)
Fixpoint chars (s : string) : list string :=
  match s with
  | EmptyString => []
  | String c rest => String c EmptyString :: chars rest
  end.

End JsString.

(** ** JavaScript values and the heap *)

Module Js.

Abbreviation loc := nat.

(** A value is a primitive, a reference to an object or array cell of the
    heap, or a built-in of the engine (a method or prototype object found
    through the prototype chain), which the sources never construct but
    which a property read can return.  A number is an integer: [NaN], the
    infinities and the fractions are no values of this model, and what is
    proved of numbers is proved of integers. *)
Inductive value : Type :=
| VUndefined
| VNull
| VBool (b : bool)
| VNum (n : Z)
| VStr (s : string)
| VRef (l : loc)
| VNative (name : string) (callable : bool).

(** A heap cell: a plain object (its own enumerable properties) or an
    array. *)
Inductive cell : Type :=
| Obj (props : gmap string value)
| Arr (elems : list value).

Abbreviation heap := (list cell).

Inductive jstype := TUndefined | TObject | TBoolean | TNumber | TString | TFunction.

(** [typeof v]; [typeof null] and [typeof []] are ['object']. *)
Definition typeof (v : value) : jstype :=
  match v with
  | VUndefined => TUndefined
  | VNull => TObject
  | VBool _ => TBoolean
  | VNum _ => TNumber
  | VStr _ => TString
  | VRef _ => TObject
  | VNative _ callable => if callable then TFunction else TObject
  end.

Definition is_object_type (v : value) : bool :=
  match typeof v with TObject => true | _ => false end.

Definition is_number (v : value) : bool :=
  match v with VNum _ => true | _ => false end.

(** [v === null || v === undefined]. *)
Definition is_nullish (v : value) : bool :=
  match v with VUndefined | VNull => true | _ => false end.

(** What kind of receiver a property read sees; the prototype chain
    depends on nothing else. *)
Inductive kind :=
| KObject | KArray | KString | KNumber | KBoolean | KNative (name : string).

Definition kind_of (h : heap) (v : value) : option kind :=
  match v with
  | VUndefined | VNull => None
  | VBool _ => Some KBoolean
  | VNum _ => Some KNumber
  | VStr _ => Some KString
  | VRef l => match h !! l with
              | Some (Arr _) => Some KArray
              | _ => Some KObject
              end
  | VNative name _ => Some (KNative name)
  end.

(** The index properties ["0"], ["1"], ... of an array or a string. *)
Definition indexed (vs : list value) : gmap string value :=
  list_to_map (imap (fun i v => (pretty i, v)) vs).

(** The own enumerable properties of a value: what [{...v}] copies. *)
Definition own_props (h : heap) (v : value) : gmap string value :=
  match v with
  | VRef l => match h !! l with
              | Some (Obj props) => props
              | Some (Arr elems) => indexed elems
              | None => ∅
              end
  | VStr s => indexed (VStr <$> JsString.chars s)
  | _ => ∅
  end.

(** An own property, enumerable or not ([length] of arrays and strings). *)
Definition get_own (h : heap) (v : value) (key : string) : option value :=
  match v with
  | VRef l => match h !! l with
              | Some (Obj props) => props !! key
              | Some (Arr elems) =>
                  if String.eqb key "length" then Some (VNum (Z.of_nat (length elems)))
                  else indexed elems !! key
              | None => None
              end
  | VStr s =>
      if String.eqb key "length" then Some (VNum (Z.of_nat (String.length s)))
      else indexed (VStr <$> JsString.chars s) !! key
  | _ => None
  end.

(** [{...v}] and [{}] allocate a new plain object. *)
Definition alloc (h : heap) (c : cell) : heap * loc := (h ++ [c], length h).

(** [o[key] = v] on a plain object [o].  The key [__proto__] is an
    accessor of [Object.prototype] whose setter replaces the prototype
    instead of creating a property, and writes on arrays maintain
    [length]: both are outside this model ([None]). *)
Definition assign (h : heap) (l : loc) (key : string) (v : value) : option heap :=
  if String.eqb key "__proto__" then None
  else match h !! l with
       | Some (Obj props) => Some (<[l := Obj (<[key := v]> props)]> h)
       | _ => None
       end.

(** *** Trees

    The tree a value stands for in a heap, read to a given depth: what a
    deep comparison of two values looks at. *)
#[warnings="-register-all"]
Inductive tree : Type :=
| TPrim (v : value)
| TObj (props : gmap string tree)
| TArr (elems : list tree)
| TDangling
| TDeeper.

Fixpoint snapshot (depth : nat) (h : heap) (v : value) : tree :=
  match depth with
  | 0 => TDeeper
  | S d =>
      match v with
      | VRef l =>
          match h !! l with
          | Some (Obj props) => TObj (snapshot d h <$> props)
          | Some (Arr elems) => TArr (snapshot d h <$> elems)
          | None => TDangling
          end
      | _ => TPrim v
      end
  end.

(** Every reference points into the first [n] cells. *)
Definition closed_value (n : nat) (v : value) : Prop :=
  match v with VRef l => l < n | _ => True end.

Definition closed_cell (n : nat) (c : cell) : Prop :=
  match c with
  | Obj props => map_Forall (fun _ v => closed_value n v) props
  | Arr elems => Forall (closed_value n) elems
  end.

(** A heap without dangling references. *)
Definition closed_heap (h : heap) : Prop := Forall (closed_cell (length h)) h.

(** The values the engine's prototype chain supplies refer to objects of
    the first [n] cells only. *)
Definition proto_closed (n : nat) (proto : kind -> string -> option value) : Prop :=
  forall k key v, proto k key = Some v -> closed_value n v.

(** The heap [h'] of a later moment holds every object of [h] as it was,
    and so the tree of [obj] is the same in both. *)
Definition preserves (h : heap) (obj : value) (h' : heap) : Prop :=
  h `prefix_of` h' /\ forall depth, snapshot depth h' obj = snapshot depth h obj.

(** The call that turned [h] into [h'] returned a new object [t'] in
    place of [t]: one new cell for the root and one per inner segment of
    [parts], and, apart from the first segment, the properties of [t']
    are the values [t] holds (for an object, the same reference). *)
Definition rebuilt (h : heap) (t : value) (h' : heap) (t' : value) (parts : list string)
  : Prop :=
  t' = VRef (length h)
  /\ length h' = length h + length parts
  /\ forall key, key <> hd "" parts -> own_props h' t' !! key = own_props h t !! key.

(** From the object at [current], the own properties [inner] lead from
    object to object, and the last of them holds [last := v]. *)
Fixpoint chain (h : heap) (current : loc) (inner : list string) (last : string) (v : value)
  : Prop :=
  match inner with
  | [] => get_own h (VRef current) last = Some v
  | part :: rest =>
      exists next, get_own h (VRef current) part = Some (VRef next) /\ chain h next rest last v
  end.

(** What the writes along a path leave behind: the chain of own
    properties from [current] to the value, the cells below [current] as
    they were, one new cell per inner segment, and [current] changed in
    its first segment only. *)
Definition written (h h2 : heap) (current : loc) (props : gmap string value)
    (inner : list string) (last : string) (v x : value) : Prop :=
  chain h2 current inner last v
  /\ (forall l, l < current -> h2 !! l = h !! l)
  /\ length h2 = length h + length inner
  /\ h2 !! current = Some (Obj (<[hd last inner := x]> props)).

Section Engine.

(** The prototype chain of the engine: for a receiver kind and a key
    that is not an own property, the inherited property if there is one
    ([toString], [constructor], [__proto__], the array methods, ...).
    It is fixed by the JavaScript engine, not by this repository. *)
Variable proto : kind -> string -> option value.

Definition inherited (h : heap) (v : value) (key : string) : option value :=
  match kind_of h v with
  | Some k => proto k key
  | None => None
  end.

(** [v[key]], for [v] neither [null] nor [undefined].  Every property
    is a data property here: a read returns a value.  The accessors of
    the engine that throw when read ([caller] and [arguments] of a
    built-in function) are outside this model, and nothing below is
    stated of a read through a built-in function. *)
Definition get_prop (h : heap) (v : value) (key : string) : value :=
  match get_own h v key with
  | Some x => x
  | None => default VUndefined (inherited h v key)
  end.

(** [key in v]. *)
Definition has_prop (h : heap) (v : value) (key : string) : bool :=
  bool_decide (is_Some (get_own h v key)) || bool_decide (is_Some (inherited h v key)).

(** What [current[part]] reads in a plain object [current] with the own
    properties [props]. *)
Definition found (props : gmap string value) (part : string) : value :=
  match props !! part with
  | Some x => x
  | None => default VUndefined (proto KObject part)
  end.

(** The own properties of the object that takes the place of [child] on
    the path of a write: those of [{...child}] where [child] has type
    ['object'], those of [{}] elsewhere. *)
Definition replacement (h : heap) (child : value) : gmap string value :=
  if is_object_type child then own_props h child else ∅.

(** The branch a write of [v] along [parts] has built in [h'] from the
    new object [new], which stands for a node with the own properties
    [props] in [h]: at every segment but the last the new object is the
    old node with that one property pointing to the next new object, and
    at the last segment it is the old node with that one property set to
    [v].  Every property off the path holds the value the old node holds
    (for an object, the same reference). *)
Fixpoint copied (h h' : heap) (props : gmap string value) (new : loc)
    (parts : list string) (v : value) : Prop :=
  match parts with
  | [] => False
  | part :: rest =>
      match rest with
      | [] => h' !! new = Some (Obj (<[part := v]> props))
      | _ :: _ =>
          exists next,
            length h <= next
            /\ h' !! new = Some (Obj (<[part := VRef next]> props))
            /\ copied h h' (replacement h (found props part)) next rest v
      end
  end.

(** The tree [t'] returned in [h'] is [t] reconstructed along [parts]. *)
Definition reconstructed (h : heap) (t : value) (h' : heap) (t' : value)
    (parts : list string) (v : value) : Prop :=
  exists new, t' = VRef new /\ length h <= new
              /\ copied h h' (own_props h t) new parts v.

End Engine.

(** An engine without inherited properties, and the part of
    [Object.prototype] every engine has. *)
Definition no_proto : kind -> string -> option value := fun _ _ => None.

Definition object_prototype_methods : list string :=
  ["constructor"; "hasOwnProperty"; "isPrototypeOf"; "propertyIsEnumerable";
   "toLocaleString"; "toString"; "valueOf"].

Definition standard_proto : kind -> string -> option value :=
  fun k key =>
    if String.eqb key "__proto__" then Some (VNative "prototype" false)
    else if bool_decide (key ∈ object_prototype_methods) then Some (VNative key true)
    else None.

End Js.

(** ** The runtime's path resolver:
    [apps/runtime-ui/src/runtime/jsonpath/index.ts] *)

Module JsonPath.
Import Js.

(** The four [throw new Error(...)] of [validatePath]. *)
Inductive path_error :=
| MissingRoot               (* Path must start with "$" or "$." *)
| ArraySyntax               (* Array and wildcard syntax not supported *)
| ParentTraversal           (* Parent traversal (..) not allowed *)
| DangerousKey (part : string).

(** How a call ends: it returns, it throws, or it leaves the model
    (see [Js.assign]). *)
Inductive outcome (A : Type) :=
| Return (a : A)
| Throw (e : path_error)
| Unmodelled.
Arguments Return {A} a.
Arguments Throw {A} e.
Arguments Unmodelled {A}.

Definition dangerousKeys : list string := ["__proto__"; "constructor"; "prototype"].

Definition is_dangerous (part : string) : bool :=
  existsb (String.eqb part) dangerousKeys.

(** The character class of [/[[\]()*]/]. *)
Definition is_bracket (c : ascii) : bool :=
  existsb (Ascii.eqb c) ["["; "]"; "("; ")"; "*"]%char.

(** [path.replace(/^\$\./, '')]. *)
Definition strip_root (path : string) : string :=
  match path with
  | String "$" (String "." rest) => rest
  | _ => path
  end.

(** [path.replace(/^\$\./, '').split('.')]. *)
Definition path_parts (path : string) : list string :=
  JsString.split "." (strip_root path).

(** [validatePath]: [None] when it returns, [Some e] when it throws. *)
Definition validatePath (path : string) : option path_error :=
  if negb (String.eqb path "$") && negb (JsString.startsWith "$." path) then Some MissingRoot
  else if JsString.any_char is_bracket path then Some ArraySyntax
  else if JsString.includes ".." path then Some ParentTraversal
  else match List.find is_dangerous (path_parts path) with
       | Some part => Some (DangerousKey part)
       | None => None
       end.

(** A path names a dangerous key, a parent traversal or a wildcard. *)
Definition dangerous_path (path : string) : Prop :=
  (exists segment, segment ∈ JsString.split "." path /\ is_dangerous segment = true)
  \/ JsString.includes ".." path = true
  \/ JsString.includes "*" path = true.

(** [!path || path === '$']. *)
Definition is_root (path : string) : bool :=
  String.eqb path "" || String.eqb path "$".

Section Engine.
Variable proto : kind -> string -> option value.

(** The loop of [getJsonPath]. *)
Fixpoint walk (h : heap) (current : value) (parts : list string) : value :=
  match parts with
  | [] => current
  | part :: rest =>
      if is_nullish current then VUndefined
      else walk h (get_prop proto h current part) rest
  end.

Definition getJsonPath (h : heap) (obj : value) (path : string) : outcome value :=
  if is_root path then Return obj
  else match validatePath path with
       | Some e => Throw e
       | None => Return (walk h obj (path_parts path))
       end.

(** The loop of [setJsonPath] over [parts[0 .. length - 2]]: each node on
    the path is replaced, in the object [current], by a new empty object
    or by a shallow copy of the node, and [current] moves to it. *)
Fixpoint descend (h : heap) (current : loc) (inner : list string) : option (heap * loc) :=
  match inner with
  | [] => Some (h, current)
  | part :: rest =>
      let child := get_prop proto h (VRef current) part in
      let props :=
        if negb (has_prop proto h (VRef current) part) || negb (is_object_type child)
        then ∅ else own_props h child in
      let '(h1, fresh) := alloc h (Obj props) in
      h2 ← assign h1 current part (VRef fresh);
      match get_prop proto h2 (VRef current) part with
      | VRef next => descend h2 next rest
      | _ => None
      end
  end.

(** [parts[parts.length - 1]]; the key of an undefined index is
    ["undefined"], which [split] never produces. *)
Definition last_part (parts : list string) : string := List.last parts "undefined".

Definition setJsonPath (h : heap) (obj : value) (path : string) (v : value)
  : outcome (value * heap) :=
  if is_root path then Return (v, h)
  else match validatePath path with
       | Some e => Throw e
       | None =>
           let parts := path_parts path in
           let '(h0, result) := alloc h (Obj (own_props h obj)) in
           match descend h0 result (removelast parts) with
           | Some (h1, current) =>
               match assign h1 current (last_part parts) v with
               | Some h2 => Return (VRef result, h2)
               | None => Unmodelled
               end
           | None => Unmodelled
           end
       end.

End Engine.

End JsonPath.

(** ** The SDK's dot-path helpers ([getByPath], [setByPath]) *)

Module SdkPath.
Import Js.

Section Engine.
Variable proto : kind -> string -> option value.

(** The loop of [getByPath]. *)
Fixpoint walk (h : heap) (current : value) (parts : list string) : value :=
  match parts with
  | [] => current
  | part :: rest =>
      if is_nullish current then VUndefined
      else if negb (is_object_type current) then VUndefined
      else walk h (get_prop proto h current part) rest
  end.

(** [getByPath(obj, path)]; [path] is a string by its type, so only
    [!path] is left of the first test. *)
Definition getByPath (h : heap) (obj : value) (path : string) : value :=
  if String.eqb path "" then VUndefined
  else walk h obj (JsString.split "." path).

(** [hasPath(obj, path)]. *)
Definition hasPath (h : heap) (obj : value) (path : string) : bool :=
  match getByPath h obj path with VUndefined => false | _ => true end.

(** The loop of [setByPath] over [parts[0 .. length - 2]]. *)
Fixpoint descend (h : heap) (current : loc) (inner : list string) : option (heap * loc) :=
  match inner with
  | [] => Some (h, current)
  | part :: rest =>
      let child := get_prop proto h (VRef current) part in
      let props :=
        if match child with VUndefined => true | _ => false end
           || negb (is_object_type child)
        then ∅ else own_props h child in
      let '(h1, fresh) := alloc h (Obj props) in
      h2 ← assign h1 current part (VRef fresh);
      match get_prop proto h2 (VRef current) part with
      | VRef next => descend h2 next rest
      | _ => None
      end
  end.

(** [setByPath(obj, path, value)]: the returned root and the heap after
    the call; [None] when the call leaves the model (see [Js.assign]).
    The function has no [throw]. *)
Definition setByPath (h : heap) (obj : value) (path : string) (v : value)
  : option (value * heap) :=
  if String.eqb path "" then Some (obj, h)
  else
    let parts := JsString.split "." path in
    let '(h0, result) := alloc h (Obj (own_props h obj)) in
    '(h1, current) ← descend h0 result (removelast parts);
    h2 ← assign h1 current (List.last parts "undefined") v;
    Some (VRef result, h2).

End Engine.

End SdkPath.

(** ** Conditions: [packages/sdk] ([types/condition.ts], [evaluateCondition]) *)

Module Conditions.
Import Js.

(** A condition object.  [isCompoundCondition] is tested first, so an
    object with [logic] and [conditions] is compound whatever else it
    holds; one with [field] and [operator] is simple; any other object is
    [Malformed].  [logic] and [operator] are kept as the strings found in
    the JSON: the TypeScript unions do not exist at run time. *)
#[warnings="-register-all"]
Inductive Condition : Type :=
| SimpleCondition (field : string) (operator : string) (value : value)
| CompoundCondition (logic : string) (conditions : list Condition)
| Malformed.

Inductive ConditionOperator :=
| Eq | Neq | Gt | Gte | Lt | Lte
| Contains | NotContains | StartsWith | EndsWith
| In | NotIn | Empty | NotEmpty | Matches.

Definition operators : list (string * ConditionOperator) :=
  [("eq", Eq); ("neq", Neq); ("gt", Gt); ("gte", Gte); ("lt", Lt); ("lte", Lte);
   ("contains", Contains); ("notContains", NotContains);
   ("startsWith", StartsWith); ("endsWith", EndsWith);
   ("in", In); ("notIn", NotIn); ("empty", Empty); ("notEmpty", NotEmpty);
   ("matches", Matches)].

(** The [case] label the [switch] selects; [None] is [default]. *)
Definition operator_of (name : string) : option ConditionOperator :=
  snd <$> List.find (fun entry => String.eqb name (fst entry)) operators.

(** The comparison each numeric operator stands for. *)
Definition comparison (operator : string) : option (Z -> Z -> bool) :=
  if String.eqb operator "gt" then Some Z.gtb
  else if String.eqb operator "gte" then Some Z.geb
  else if String.eqb operator "lt" then Some Z.ltb
  else if String.eqb operator "lte" then Some Z.leb
  else None.

(** [a === b].  Two references are equal when they are the same object.
    [Array.prototype.includes] compares with SameValueZero, which differs
    from [===] on [NaN] only, and so is this function too. *)
Definition strict_eq (a b : value) : bool :=
  match a, b with
  | VUndefined, VUndefined => true
  | VNull, VNull => true
  | VBool x, VBool y => Bool.eqb x y
  | VNum x, VNum y => Z.eqb x y
  | VStr x, VStr y => String.eqb x y
  | VRef x, VRef y => Nat.eqb x y
  | VNative x _, VNative y _ => String.eqb x y
  | _, _ => false
  end.

(** [s.endsWith(p)]. *)
Fixpoint endsWith (p s : string) : bool :=
  String.eqb p s ||
  match s with
  | EmptyString => false
  | String _ rest => endsWith p rest
  end.

(** [Array.isArray(v)], with the elements. *)
Definition as_array (h : heap) (v : value) : option (list value) :=
  match v with
  | VRef l => match h !! l with Some (Arr elems) => Some elems | _ => None end
  | _ => None
  end.

(** [fieldValue === undefined || fieldValue === null || fieldValue === '']. *)
Definition is_empty (v : value) : bool :=
  match v with
  | VUndefined | VNull => true
  | VStr s => String.eqb s ""
  | _ => false
  end.

Section Engine.
Variable proto : kind -> string -> option value.

(** [new RegExp(pattern).test(s)]: [None] when the pattern does not
    compile (the constructor throws).  The regular-expression engine
    belongs to JavaScript, not to this repository. *)
Variable regexp_test : string -> string -> option bool.

Definition evaluateSimpleCondition
    (h : heap) (field operator : string) (compareValue data : value) : bool :=
  let fieldValue := SdkPath.getByPath proto h data field in
  match operator_of operator with
  | Some Eq => strict_eq fieldValue compareValue
  | Some Neq => negb (strict_eq fieldValue compareValue)
  | Some Gt =>
      match fieldValue, compareValue with
      | VNum a, VNum b => Z.gtb a b
      | _, _ => false
      end
  | Some Gte =>
      match fieldValue, compareValue with
      | VNum a, VNum b => Z.geb a b
      | _, _ => false
      end
  | Some Lt =>
      match fieldValue, compareValue with
      | VNum a, VNum b => Z.ltb a b
      | _, _ => false
      end
  | Some Lte =>
      match fieldValue, compareValue with
      | VNum a, VNum b => Z.leb a b
      | _, _ => false
      end
  | Some Contains =>
      match fieldValue, compareValue with
      | VStr a, VStr b => JsString.includes b a
      | _, _ => false
      end
  | Some NotContains =>
      match fieldValue, compareValue with
      | VStr a, VStr b => negb (JsString.includes b a)
      | _, _ => true
      end
  | Some StartsWith =>
      match fieldValue, compareValue with
      | VStr a, VStr b => JsString.startsWith b a
      | _, _ => false
      end
  | Some EndsWith =>
      match fieldValue, compareValue with
      | VStr a, VStr b => endsWith b a
      | _, _ => false
      end
  | Some In =>
      match as_array h compareValue with
      | Some elems => existsb (strict_eq fieldValue) elems
      | None => false
      end
  | Some NotIn =>
      match as_array h compareValue with
      | Some elems => negb (existsb (strict_eq fieldValue) elems)
      | None => true
      end
  | Some Empty => is_empty fieldValue
  | Some NotEmpty => negb (is_empty fieldValue)
  | Some Matches =>
      match fieldValue, compareValue with
      | VStr a, VStr b => default false (regexp_test b a)
      | _, _ => false
      end
  | None => false
  end.

(** [evaluateCondition] with [evaluateCompoundCondition] inlined (the
    two are mutually recursive in the source). *)
Fixpoint evaluateCondition (h : heap) (condition : Condition) (data : value) : bool :=
  match condition with
  | CompoundCondition logic conditions =>
      let results := List.map (fun c => evaluateCondition h c data) conditions in
      if String.eqb logic "and" then forallb id results
      else if String.eqb logic "or" then existsb id results
      else false
  | SimpleCondition field operator compareValue =>
      evaluateSimpleCondition h field operator compareValue data
  | Malformed => false
  end.

Definition evaluateCompoundCondition
    (h : heap) (logic : string) (conditions : list Condition) (data : value) : bool :=
  evaluateCondition h (CompoundCondition logic conditions) data.

End Engine.

End Conditions.

(** ** Linear routing: [runtime/routing/getNextStepId.ts] *)

Module Routing.

(** The part of a wizard step the routing and the loader read. *)
Record WizardStep := {
  id : string;
  pageRef : option string
}.

(** [xs.findIndex(p)], with [None] for [-1]. *)
Fixpoint findIndex {A : Type} (p : A -> bool) (xs : list A) : option nat :=
  match xs with
  | [] => None
  | x :: rest => if p x then Some 0 else S <$> findIndex p rest
  end.

Definition getNextStepIdLinear (steps : list WizardStep) (currentStepId : string)
  : option string :=
  match findIndex (fun s => String.eqb (id s) currentStepId) steps with
  | None => None
  | Some currentIndex =>
      if Nat.eqb currentIndex (length steps - 1) then None
      else id <$> steps !! (currentIndex + 1)
  end.

(** [next] is the step declared right after the first step whose id is
    [current]. *)
Definition next_in_order (steps : list WizardStep) (current next : string) : Prop :=
  exists before s s' after,
    steps = before ++ s :: s' :: after
    /\ Forall (fun x => id x <> current) before
    /\ id s = current /\ id s' = next.

(** The wizard [{steps: [{id: "s1"}, {id: "s2"}, {id: "s3"}]}]. *)
Definition s123 : list WizardStep :=
  [ {| id := "s1"; pageRef := None |}; {| id := "s2"; pageRef := None |};
    {| id := "s3"; pageRef := None |} ].

Definition isLastStep (steps : list WizardStep) (currentStepId : string) : bool :=
  match getNextStepIdLinear steps currentStepId with None => true | Some _ => false end.

Definition canGoBack (stepHistory : list string) : bool :=
  negb (Nat.eqb (length stepHistory) 0).

End Routing.

(** ** The wizard store: [runtime/state/wizardStore.ts] *)

Module WizardStore.
Import Js JsonPath Routing.

(** The fields of the zustand store the navigation and state actions
    read or write ([pages] is left out: none of them touches it). *)
Record WizardState := {
  wizard : option (list WizardStep);      (* wizard.definition.steps *)
  sessionId : option string;
  currentStep : option string;
  stepHistory : list string;
  sessionState : value;
  isLoading : bool;
  error : option string
}.

Record StateUpdate := { path : string; value : Js.value }.

(** A request sent to the runtime API. *)
Inductive ApiCall :=
| UpdateSession (session_id : string) (state : Js.value) (current_step : string).

(** A [string | null] used as a condition: [Some s] when it is truthy
    ([null] and the empty string are falsy). *)
Definition truthy (s : option string) : option string :=
  match s with
  | Some str => if String.eqb str "" then None else Some str
  | None => None
  end.

Definition set_step (st : WizardState) (step : string) (history : list string) : WizardState :=
  {| wizard := wizard st; sessionId := sessionId st;
     currentStep := Some step; stepHistory := history;
     sessionState := sessionState st;
     isLoading := isLoading st; error := error st |}.

Definition set_sessionState (st : WizardState) (s : Js.value) : WizardState :=
  {| wizard := wizard st; sessionId := sessionId st;
     currentStep := currentStep st; stepHistory := stepHistory st;
     sessionState := s;
     isLoading := isLoading st; error := error st |}.

Definition goToStep (st : WizardState) (stepId : string) : WizardState :=
  match truthy (currentStep st) with
  | None => set_step st stepId (stepHistory st)               (* first step load *)
  | Some current => set_step st stepId (stepHistory st ++ [current])
  end.

(** [goNext]: the store after the call and the requests it sends.  The
    request is awaited after the store is updated and its failure is
    caught and logged, so the store does not depend on the answer. *)
Definition goNext (st : WizardState) : WizardState * list ApiCall :=
  match wizard st, truthy (currentStep st) with
  | Some steps, Some current =>
      match truthy (getNextStepIdLinear steps current) with
      | None => (st, [])          (* Last step - trigger onComplete (TODO) *)
      | Some nextStepId =>
          (goToStep st nextStepId,
           match truthy (sessionId st) with
           | Some sid => [UpdateSession sid (sessionState st) nextStepId]
           | None => []
           end)
      end
  | _, _ => (st, [])
  end.

(** [goBack]: [stepHistory[length - 1]] and [stepHistory.slice(0, -1)]. *)
Definition goBack (st : WizardState) : WizardState :=
  match stepHistory st with
  | [] => st                      (* can't go back from first step *)
  | _ :: _ =>
      set_step st (List.last (stepHistory st) "") (removelast (stepHistory st))
  end.

Section Engine.
Variable proto : kind -> string -> option Js.value.

(** [setStateAtPath]: the root is the whole [sessionState]. *)
Definition setStateAtPath (h : heap) (st : WizardState) (p : string) (v : Js.value)
  : outcome (WizardState * heap) :=
  match setJsonPath proto h (sessionState st) p v with
  | Return (s, h') => Return (set_sessionState st s, h')
  | Throw e => Throw e
  | Unmodelled => Unmodelled
  end.

Definition getStateAtPath (h : heap) (st : WizardState) (p : string) : outcome Js.value :=
  getJsonPath proto h (sessionState st) p.

(** The [for] loop of [applyStateUpdates]. *)
Fixpoint apply_loop (h : heap) (newSessionState : Js.value) (updates : list StateUpdate)
  : outcome (Js.value * heap) :=
  match updates with
  | [] => Return (newSessionState, h)
  | update :: rest =>
      match setJsonPath proto h newSessionState (path update) (value update) with
      | Return (s, h') => apply_loop h' s rest
      | Throw e => Throw e
      | Unmodelled => Unmodelled
      end
  end.

(** [applyStateUpdates]: one [set] of the store with the result of the
    loop; an exception of the loop leaves the store as it was. *)
Definition applyStateUpdates (h : heap) (st : WizardState) (updates : list StateUpdate)
  : outcome (WizardState * heap) :=
  match apply_loop h (sessionState st) updates with
  | Return (s, h') => Return (set_sessionState st s, h')
  | Throw e => Throw e
  | Unmodelled => Unmodelled
  end.

(** The batch as the specification words it: the single-path set of
    the store folded over the patches, in list order, from the current
    state. *)
Definition fold_set_step (acc : outcome (WizardState * heap)) (update : StateUpdate)
  : outcome (WizardState * heap) :=
  match acc with
  | Return (st, h) => setStateAtPath h st (path update) (value update)
  | Throw e => Throw e
  | Unmodelled => Unmodelled
  end.

Definition applyStateUpdates_spec (h : heap) (st : WizardState) (updates : list StateUpdate)
  : outcome (WizardState * heap) :=
  foldl fold_set_step (Return (st, h)) updates.

End Engine.

End WizardStore.

(** ** Page references: [runtime/loaders/pageLoader.ts] *)

Module PageLoader.

Inductive parsed :=
| PageRef (pageKey version : string)
| InvalidPageRef.            (* throw new Error(`Invalid pageRef format...`) *)

Definition parsePageRef (pageRef : string) : parsed :=
  match JsString.split "@" pageRef with
  | [pageKey; version] => PageRef pageKey version
  | _ => InvalidPageRef
  end.

End PageLoader.

(** ** The definition store and the publish pipeline *)

Module Definitions.

Inductive def_kind := Wizard | Page.

Inductive version := Draft | Published (n : nat).

(** Modelled from the spec: the version tags [v1], [v2], ... of published
    rows (section 3, Definition). *)
Definition version_tag (v : version) : string :=
  match v with
  | Draft => "draft"
  | Published n => String.append "v" (pretty n)
  end.

Section Store.

(** The JSON body of a definition, its content hash, the JSON-schema
    validator and the page references of a wizard's steps are external
    to the store. *)
Variable body : Type.
Variable checksum_of : body -> string.
Variable schema_valid : def_kind -> body -> bool.
Variable page_refs : body -> list (string * nat).

(** Modelled from the spec: a definition row (section 3); the API that
    holds the rows is not among the sources. *)
Record row := {
  row_kind : def_kind;
  row_key : string;
  row_version : version;
  row_body : body;
  row_checksum : string;
  row_author : string
}.

Definition store := list row.

Definition kind_eqb (a b : def_kind) : bool :=
  match a, b with Wizard, Wizard | Page, Page => true | _, _ => false end.

Definition version_eqb (a b : version) : bool :=
  match a, b with
  | Draft, Draft => true
  | Published m, Published n => Nat.eqb m n
  | _, _ => false
  end.

Definition is_row (k : def_kind) (key : string) (v : version) (r : row) : bool :=
  kind_eqb (row_kind r) k && String.eqb (row_key r) key && version_eqb (row_version r) v.

(** Modelled from the spec: [getDraft(kind, key)] (section 4.3). *)
Definition getDraft (s : store) (k : def_kind) (key : string) : option row :=
  List.find (is_row k key Draft) s.

(** Modelled from the spec: [getPublished(kind, key, version)]. *)
Definition getPublished (s : store) (k : def_kind) (key : string) (n : nat) : option row :=
  List.find (is_row k key (Published n)) s.

(** Modelled from the spec: the published version numbers of a key. *)
Definition published_versions (s : store) (k : def_kind) (key : string) : list nat :=
  omap (fun r =>
          if kind_eqb (row_kind r) k && String.eqb (row_key r) key
          then match row_version r with Published n => Some n | Draft => None end
          else None) s.

Definition max_version (s : store) (k : def_kind) (key : string) : nat :=
  foldr Nat.max 0 (published_versions s k key).

(** Modelled from the spec: [getLatestPublished(kind, key)], the
    highest version number. *)
Definition getLatestPublished (s : store) (k : def_kind) (key : string) : option row :=
  getPublished s k key (max_version s k key).

Definition is_draft_of (k : def_kind) (key : string) (r : row) : bool :=
  is_row k key Draft r.

(** Modelled from the spec: [upsertDraft(kind, key, body, author)]
    recomputes the checksum and keeps one draft row per key. *)
Definition upsertDraft (s : store) (k : def_kind) (key : string) (b : body) (author : string)
  : store :=
  List.filter (fun r => negb (is_draft_of k key r)) s
  ++ [ {| row_kind := k; row_key := key; row_version := Draft; row_body := b;
          row_checksum := checksum_of b; row_author := author |} ].

(** Modelled from the spec: [deleteDraft(kind, key)]. *)
Definition deleteDraft (s : store) (k : def_kind) (key : string) : store :=
  List.filter (fun r => negb (is_draft_of k key r)) s.

(** Modelled from the spec: [createNextPublishedVersion]: the next
    number is one more than the highest published one (1 if there is
    none); a new row is inserted and nothing else changes. *)
Definition createNextPublishedVersion
    (s : store) (k : def_kind) (key : string) (b : body) (checksum author : string)
  : store * nat :=
  let n := S (max_version s k key) in
  (s ++ [ {| row_kind := k; row_key := key; row_version := Published n; row_body := b;
             row_checksum := checksum; row_author := author |} ], n).

Inductive publish_result :=
| PublishedAs (s : store) (n : nat) (checksum : string)
| NotFound
| SchemaInvalid
| ReferentialIntegrityFailed (missing : list (string * nat)).

(** Modelled from the spec: the references of a wizard body that do not
    name a published page (collect-all). *)
Definition missing_refs (s : store) (k : def_kind) (b : body) : list (string * nat) :=
  match k with
  | Wizard =>
      List.filter (fun ref => match getPublished s Page (fst ref) (snd ref) with
                              | Some _ => false
                              | None => true
                              end) (page_refs b)
  | Page => []
  end.

(** Modelled from the spec: the publish pipeline (section 4.4): load
    the draft, validate it, check the references, commit the next
    version with the checksum of the validated body. *)
Definition publish (s : store) (k : def_kind) (key : string) : publish_result :=
  match getDraft s k key with
  | None => NotFound
  | Some draft =>
      if negb (schema_valid k (row_body draft)) then SchemaInvalid
      else match missing_refs s k (row_body draft) with
           | _ :: _ as missing => ReferentialIntegrityFailed missing
           | [] =>
               let '(s', n) :=
                 createNextPublishedVersion s k key (row_body draft)
                   (checksum_of (row_body draft)) (row_author draft) in
               PublishedAs s' n (checksum_of (row_body draft))
           end
  end.

(** What an author does between two publishes. *)
Inductive draft_edit :=
| Upsert (k : def_kind) (key : string) (b : body) (author : string)
| Delete (k : def_kind) (key : string).

Definition apply_edit (s : store) (e : draft_edit) : store :=
  match e with
  | Upsert k key b author => upsertDraft s k key b author
  | Delete k key => deleteDraft s k key
  end.

Definition apply_edits (s : store) (es : list draft_edit) : store :=
  foldl apply_edit s es.

End Store.

Arguments row_kind {body}.
Arguments row_key {body}.
Arguments row_version {body}.
Arguments row_body {body}.
Arguments row_checksum {body}.
Arguments row_author {body}.
Arguments is_row {body}.
Arguments is_draft_of {body}.
Arguments getDraft {body}.
Arguments getPublished {body}.
Arguments published_versions {body}.
Arguments max_version {body}.
Arguments getLatestPublished {body}.
Arguments upsertDraft {body}.
Arguments deleteDraft {body}.
Arguments createNextPublishedVersion {body}.
Arguments PublishedAs {body}.
Arguments NotFound {body}.
Arguments SchemaInvalid {body}.
Arguments ReferentialIntegrityFailed {body}.
Arguments missing_refs {body}.
Arguments publish {body}.
Arguments Upsert {body}.
Arguments Delete {body}.
Arguments apply_edit {body}.
Arguments apply_edits {body}.

End Definitions.

(** ** The SDK's [deleteByPath] *)

Module SdkDelete.
Import Js.

(** [delete o[key]] on a plain object [o]: an own property goes, an
    inherited one stays where it is. *)
Definition remove_prop (h : heap) (l : loc) (key : string) : option heap :=
  match h !! l with
  | Some (Obj props) => Some (<[l := Obj (delete key props)]> h)
  | _ => None
  end.

Section Engine.
Variable proto : kind -> string -> option value.

(** The loop of [deleteByPath]: [Some (h, None)] is the early
    [return result] at a node that is missing or not an object. *)
Fixpoint descend (h : heap) (current : loc) (inner : list string)
  : option (heap * option loc) :=
  match inner with
  | [] => Some (h, Some current)
  | part :: rest =>
      let child := get_prop proto h (VRef current) part in
      if match child with VUndefined => true | _ => false end
         || negb (is_object_type child)
      then Some (h, None)
      else
        let '(h1, fresh) := alloc h (Obj (own_props h child)) in
        h2 ← assign h1 current part (VRef fresh);
        match get_prop proto h2 (VRef current) part with
        | VRef next => descend h2 next rest
        | _ => None
        end
  end.

(** [deleteByPath(obj, path)]: the returned root and the heap after the
    call; [None] when the call leaves the model (see [Js.assign]). *)
Definition deleteByPath (h : heap) (obj : value) (path : string) : option (value * heap) :=
  if String.eqb path "" then Some (obj, h)
  else
    let parts := JsString.split "." path in
    let '(h0, result) := alloc h (Obj (own_props h obj)) in
    if Nat.eqb (length parts) 1 then
      h1 ← remove_prop h0 result (hd "undefined" parts);
      Some (VRef result, h1)
    else
      '(h1, reached) ← descend h0 result (removelast parts);
      match reached with
      | None => Some (VRef result, h1)
      | Some current =>
          h2 ← remove_prop h1 current (List.last parts "undefined");
          Some (VRef result, h2)
      end.

End Engine.

End SdkDelete.

(** ** The dot-path grammar, for stating what the resolver accepts *)

Module PathGrammar.
Import Js JsonPath.




End PathGrammar.

(** ** The other actions of the wizard store *)

Module SessionActions.
Import Js Routing WizardStore.

(** The objects [create] allocates for the initial session state,
    [{ application: {}, context: {} }], and the store it builds. *)
Definition initial_heap : heap :=
  [Obj {[ "application" := VRef 1; "context" := VRef 2 ]}; Obj ∅; Obj ∅].

Definition initial_store : WizardState :=
  {| wizard := None; sessionId := None; currentStep := None; stepHistory := [];
     sessionState := VRef 0; isLoading := false; error := None |}.

(** What the runtime API answered: a value, or the message of the
    error it threw. *)
Inductive response (A : Type) :=
| Answer (a : A)
| Failure (message : string).
Arguments Answer {A} a.
Arguments Failure {A} message.

(** The fields of [SessionData] the store reads. *)
Record SessionData := {
  session_id : string;
  current_step : option string;
  state : Js.value
}.

(** [loadWizard], given the steps of the wizard the API returned with
    its pages loaded, or the failure of one of the two: the current step
    becomes [steps[0]?.id || null]. *)
Definition loadWizard (st : WizardState) (loaded : response (list WizardStep)) : WizardState :=
  match loaded with
  | Answer steps =>
      {| wizard := Some steps; sessionId := sessionId st;
         currentStep := truthy (id <$> head steps); stepHistory := stepHistory st;
         sessionState := sessionState st; isLoading := false; error := None |}
  | Failure message =>
      {| wizard := wizard st; sessionId := sessionId st;
         currentStep := currentStep st; stepHistory := stepHistory st;
         sessionState := sessionState st; isLoading := false; error := Some message |}
  end.

Definition set_error (st : WizardState) (message : string) : WizardState :=
  {| wizard := wizard st; sessionId := sessionId st;
     currentStep := currentStep st; stepHistory := stepHistory st;
     sessionState := sessionState st; isLoading := isLoading st; error := Some message |}.

(** [createSession], given the answer of the API; [None] is the
    [throw new Error('No wizard loaded')] before the request. *)
Definition createSession (st : WizardState) (created : response SessionData)
  : option WizardState :=
  match wizard st with
  | None => None
  | Some _ =>
      Some match created with
           | Answer session =>
               {| wizard := wizard st; sessionId := Some (session_id session);
                  currentStep := currentStep st; stepHistory := stepHistory st;
                  sessionState := state session;
                  isLoading := isLoading st; error := error st |}
           | Failure message => set_error st message
           end
  end.

(** [loadSession], given the answer of the API: the step is restored
    ([session.current_step ?? null]) and the history reset. *)
Definition loadSession (st : WizardState) (loaded : response SessionData) : WizardState :=
  match loaded with
  | Answer session =>
      {| wizard := wizard st; sessionId := Some (session_id session);
         currentStep := current_step session; stepHistory := [];
         sessionState := state session; isLoading := isLoading st; error := error st |}
  | Failure message => set_error st message
  end.

(** The session the API holds after a request, as far as the request
    determines it. *)
Definition persisted (call : ApiCall) : SessionData :=
  match call with
  | UpdateSession sid s step =>
      {| session_id := sid; current_step := Some step; state := s |}
  end.

(** The two navigation buttons of [StepRouter]. *)
Inductive button := Next | Back.

Definition press (st : WizardState) (b : button) : WizardState :=
  match b with
  | Next => fst (goNext st)
  | Back => goBack st
  end.

(** The history and the current step are consecutive steps of the
    wizard, in declaration order. *)
Definition on_track (steps : list WizardStep) (st : WizardState) : Prop :=
  wizard st = Some steps
  /\ exists current before after,
      currentStep st = Some current
      /\ id <$> steps = before ++ stepHistory st ++ current :: after.

End SessionActions.

(** ** Batches of patches, for stating what [applyStateUpdates] accepts *)

Module Batch.
Import JsonPath WizardStore.

(** A path [setJsonPath] does not reject: the root, or a path
    [validatePath] lets through. *)
Definition accepted (p : string) : Prop :=
  is_root p = true \/ validatePath p = None.

End Batch.

(** ** Loading the pages of a wizard: [runtime/loaders/pageLoader.ts] *)

Module PageLoading.
Import Js Routing PageLoader.

(** JavaScript truthiness of a value. *)
Definition truthy_value (v : value) : bool :=
  match v with
  | VUndefined | VNull => false
  | VBool b => b
  | VNum n => negb (Z.eqb n 0)
  | VStr s => negb (String.eqb s "")
  | VRef _ | VNative _ _ => true
  end.

(** The references of the steps that have one. *)
Definition referenced (steps : list WizardStep) (ref : string) : Prop :=
  exists step, step ∈ steps /\ WizardStore.truthy (pageRef step) = Some ref.

Section Api.

(** A page definition as the API returns it (an object, hence truthy),
    and [runtimeApi.loadPageVersion]: [None] when the request fails. *)
Variable PageDefinition : Type.
Variable loadPageVersion : string -> string -> option PageDefinition.

(** The [Set] of the page references of the steps, in insertion
    order. *)
Definition add_ref (refs : list string) (step : WizardStep) : list string :=
  match WizardStore.truthy (pageRef step) with
  | Some ref => if bool_decide (ref ∈ refs) then refs else refs ++ [ref]
  | None => refs
  end.

Definition pageRefs (steps : list WizardStep) : list string :=
  foldl add_ref [] steps.

(** One of the promises of [pagePromises]. *)
Definition load_ref (ref : string) : option (string * PageDefinition) :=
  match parsePageRef ref with
  | PageRef pageKey version => (fun page => (ref, page)) <$> loadPageVersion pageKey version
  | InvalidPageRef => None
  end.

(** [loadWizardPages]: [Promise.all] is fulfilled when every promise
    is, and [Object.fromEntries] builds the map; [None] when the
    promise returned is rejected. *)
Definition loadWizardPages (steps : list WizardStep) : option (gmap string PageDefinition) :=
  list_to_map <$> mapM load_ref (pageRefs steps).

Inductive page_lookup :=
| Found (page : PageDefinition)
| NoPage                       (* null *)
| Builtin (v : value).         (* an inherited property of the map *)

(** [getPageForStep]: [pagesMap[step.pageRef] || null]. *)
Definition getPageForStep (proto : kind -> string -> option value)
    (step : WizardStep) (pagesMap : gmap string PageDefinition) : page_lookup :=
  match WizardStore.truthy (pageRef step) with
  | None => NoPage
  | Some ref =>
      match pagesMap !! ref with
      | Some page => Found page
      | None =>
          match proto KObject ref with
          | Some v => if truthy_value v then Builtin v else NoPage
          | None => NoPage
          end
      end
  end.

End Api.

Arguments Found {PageDefinition}.
Arguments NoPage {PageDefinition}.
Arguments Builtin {PageDefinition}.
Arguments load_ref {PageDefinition}.
Arguments loadWizardPages {PageDefinition}.
Arguments getPageForStep {PageDefinition}.

End PageLoading.

(** ** Field validation: the runtime's [validateField] and [validateStep],
    and the SDK's [validateFieldValue] *)

Module FieldValidation.
Import Js.

(** [min], [max], [minLength], [maxLength], [pattern] and
    [patternMessage]: the properties of the runtime's
    [FieldWithValidation] and of the SDK's [FieldValidation]. *)
Record Constraints := {
  min : option Z;
  max : option Z;
  minLength : option Z;
  maxLength : option Z;
  pattern : option string;
  patternMessage : option string
}.

(** [{}]. *)
Definition no_constraints : Constraints :=
  {| min := None; max := None; minLength := None; maxLength := None;
     pattern := None; patternMessage := None |}.

(** The runtime's field: the constraints are properties of the field. *)
Record Field := {
  id : string;
  type : string;
  label : string;
  required : bool;
  constraints : Constraints
}.

(** The SDK's [FieldDefinition]: the constraints are read from
    [field.validation]. *)
Record FieldDefinition := {
  def_id : string;
  def_type : string;
  def_label : string;
  def_required : bool;
  validation : option Constraints
}.

Record ValidationResult := { valid : bool; errors : list string }.

Record ValidationError := { error_path : string; message : string }.

Record SdkValidationResult := { sdk_valid : bool; sdk_errors : list ValidationError }.

(** [value === undefined || value === null || value === '']. *)
Definition is_blank (v : value) : bool :=
  match v with
  | VUndefined | VNull => true
  | VStr s => String.eqb s ""
  | _ => false
  end.

(** An optional string used as a condition. *)
Definition nonempty (s : option string) : option string :=
  match s with
  | Some str => if String.eqb str "" then None else Some str
  | None => None
  end.

Definition is_empty_list {A : Type} (l : list A) : bool :=
  match l with [] => true | _ => false end.

Section Engine.

(** [/^[^\s@]+@[^\s@]+\.[^\s@]+$/.test(s)], and
    [new RegExp(pattern).test(s)], which is [None] when the constructor
    throws: the regular expressions are the engine's. *)
Variable email_test : string -> bool.
Variable regexp_test : string -> string -> option bool.

(** [`${n}`] in a template literal: the engine's conversion of a number
    to a string (the decimal digits for an integer below 2^53). *)
Variable show : Z -> string.

(** The runtime's [validateField]; [None] when it throws (the
    [new RegExp(field.pattern)] of a pattern that does not compile). *)
Definition validateField (field : Field) (v : value) : option ValidationResult :=
  let c := constraints field in
  let missing :=
    if required field && is_blank v
    then [String.append (label field) " is required"] else [] in
  checks ←
    (if is_blank v then Some []
     else if String.eqb (type field) "email" then
       match v with
       | VStr s =>
           Some (if email_test s then [] else ["Please enter a valid email address"])
       | _ => Some []
       end
     else if String.eqb (type field) "number" then
       match v with
       | VNum n =>
           Some ((match min c with
                  | Some m =>
                      if Z.ltb n m
                      then [String.append "Value must be at least " (show m)] else []
                  | None => []
                  end)
                 ++ (match max c with
                     | Some m =>
                         if Z.gtb n m
                         then [String.append "Value must be at most " (show m)] else []
                     | None => []
                     end))
       | _ => Some []
       end
     else if String.eqb (type field) "text" || String.eqb (type field) "textarea" then
       match v with
       | VStr s =>
           let len := Z.of_nat (String.length s) in
           let short :=
             match minLength c with
             | Some m =>
                 if Z.ltb len m
                 then [String.append "Must be at least "
                         (String.append (show m) " characters")]
                 else []
             | None => []
             end in
           let long :=
             match maxLength c with
             | Some m =>
                 if Z.gtb len m
                 then [String.append "Must be at most "
                         (String.append (show m) " characters")]
                 else []
             | None => []
             end in
           match nonempty (pattern c) with
           | None => Some (short ++ long)
           | Some p =>
               match regexp_test p s with
               | None => None
               | Some matched =>
                   Some (short ++ long ++
                         (if matched then []
                          else [default "Invalid format"
                                  (nonempty (patternMessage c))]))
               end
           end
       | _ => Some []
       end
     else Some []);
  let errors := missing ++ checks in
  Some {| valid := is_empty_list errors; errors := errors |}.

(** The runtime's [validateStep] over the form data, an object of the
    heap: the loop, and the result. *)
Fixpoint step_errors (proto : kind -> string -> option value) (h : heap)
    (fields : list Field) (formData : value) : option (list string) :=
  match fields with
  | [] => Some []
  | field :: rest =>
      result ← validateField field (get_prop proto h formData (id field));
      others ← step_errors proto h rest formData;
      Some (errors result ++ others)
  end.

Definition validateStep (proto : kind -> string -> option value) (h : heap)
    (fields : list Field) (formData : value) : option ValidationResult :=
  allErrors ← step_errors proto h fields formData;
  Some {| valid := is_empty_list allErrors; errors := allErrors |}.

(** The SDK's [validateFieldValue]; [None] when it throws. *)
Definition validateFieldValue (field : FieldDefinition) (v : value)
  : option SdkValidationResult :=
  let error m := {| error_path := def_id field; message := m |} in
  if def_required field && is_blank v then
    Some {| sdk_valid := false;
            sdk_errors := [error (String.append (def_label field) " is required")] |}
  else if is_blank v then Some {| sdk_valid := true; sdk_errors := [] |}
  else
    let c := default no_constraints (validation field) in
    errors ←
      (if String.eqb (def_type field) "email" then
         match v with
         | VStr s => Some (if email_test s then [] else [error "Invalid email address"])
         | _ => Some []
         end
       else if String.eqb (def_type field) "number" then
         match v with
         | VNum n =>
             Some ((match min c with
                    | Some m =>
                        if Z.ltb n m
                        then [error (String.append "Must be at least " (show m))] else []
                    | None => []
                    end)
                   ++ (match max c with
                       | Some m =>
                           if Z.gtb n m
                           then [error (String.append "Must be at most " (show m))]
                           else []
                       | None => []
                       end))
         | _ => Some []
         end
       else if String.eqb (def_type field) "text"
               || String.eqb (def_type field) "textarea" then
         match v with
         | VStr s =>
             let len := Z.of_nat (String.length s) in
             let short :=
               match minLength c with
               | Some m =>
                   if Z.ltb len m
                   then [error (String.append "Must be at least "
                                  (String.append (show m) " characters"))]
                   else []
               | None => []
               end in
             let long :=
               match maxLength c with
               | Some m =>
                   if Z.gtb len m
                   then [error (String.append "Must be at most "
                                  (String.append (show m) " characters"))]
                   else []
               | None => []
               end in
             match nonempty (pattern c) with
             | None => Some (short ++ long)
             | Some p =>
                 match regexp_test p s with
                 | None => None
                 | Some matched =>
                     Some (short ++ long ++
                           (if matched then []
                            else [error (default "Invalid format"
                                           (nonempty (patternMessage c)))]))
                 end
             end
         | _ => Some []
         end
       else Some []);
    Some {| sdk_valid := is_empty_list errors; sdk_errors := errors |}.

End Engine.

(** The SDK field with the constraints of a runtime field. *)
Definition as_definition (field : Field) : FieldDefinition :=
  {| def_id := id field; def_type := type field; def_label := label field;
     def_required := required field; validation := Some (constraints field) |}.

End FieldValidation.

(** ** Comparing the two validators *)

Module ValidatorsCompared.
Import FieldValidation.

(** The two validators end alike: both throw, or both return, with the
    same verdict and as many errors, each SDK error naming the field. *)
Definition same_verdict (field : Field)
    (runtime : option ValidationResult) (sdk : option SdkValidationResult) : Prop :=
  match runtime, sdk with
  | None, None => True
  | Some r, Some r' =>
      valid r = sdk_valid r'
      /\ length (errors r) = length (sdk_errors r')
      /\ Forall (fun e => error_path e = id field) (sdk_errors r')
  | _, _ => False
  end.

(** The JavaScript type the checks of a field type look for. *)
Definition checked_type (type : string) (v : Js.value) : bool :=
  if String.eqb type "number" then Js.is_number v
  else if String.eqb type "email" || String.eqb type "text" || String.eqb type "textarea"
  then match v with Js.VStr _ => true | _ => false end
  else false.

End ValidatorsCompared.

(** * Properties *)

#[local] Arguments Ascii.eqb : simpl never.
#[local] Arguments String.eqb : simpl never.

(** ** Facts about strings *)


Module JsStringFacts.
Import JsString.

Lemma split_nonempty sep s : split sep s <> [].
Proof.
  destruct s as [|c rest]; simpl; [discriminate|].
  destruct (Ascii.eqb c sep); [discriminate|].
  destruct (split sep rest); discriminate.
Qed.

(** One more segment than separators. *)
Lemma split_length sep s : length (split sep s) = S (count_char sep s).
Proof.
  induction s as [|c rest IH]; simpl; [reflexivity|].
  destruct (Ascii.eqb c sep); simpl; [by rewrite IH|].
  destruct (split sep rest); simpl in *; [discriminate|done].
Qed.

Lemma split_no_sep sep s : count_char sep s = 0 -> split sep s = [s].
Proof.
  induction s as [|c rest IH]; simpl; [reflexivity|].
  destruct (Ascii.eqb c sep); simpl; [discriminate|].
  intros H. by rewrite (IH H).
Qed.

Lemma split_app sep a b :
  count_char sep a = 0 ->
  split sep (String.append a (String sep b)) = a :: split sep b.
Proof.
  induction a as [|c rest IH]; simpl.
  - intros _. by rewrite Ascii.eqb_refl.
  - destruct (Ascii.eqb c sep); simpl; [discriminate|].
    intros H. by rewrite (IH H).
Qed.

Lemma startsWith_root path :
  startsWith "$." path = true -> exists rest, path = String "$" (String "." rest).
Proof.
  destruct path as [|c [|d rest]]; simpl; try discriminate.
  - rewrite andb_false_r. discriminate.
  - rewrite andb_true_r. intros [Hc Hd]%andb_prop.
    apply Ascii.eqb_eq in Hc, Hd. subst. eauto.
Qed.

Lemma includes_char c p s :
  p c = true -> includes (String c EmptyString) s = true -> any_char p s = true.
Proof.
  intros Hp. induction s as [|d rest IH]; simpl; [discriminate|].
  rewrite andb_true_r. destruct (Ascii.eqb_spec c d) as [<-|].
  - by rewrite Hp.
  - simpl. intros H. rewrite (IH H). apply orb_true_r.
Qed.

End JsStringFacts.

(** ** Facts about the heap *)

Module JsFacts.
Import Js.

Lemma assign_obj h l key v props :
  h !! l = Some (Obj props) -> key <> "__proto__" ->
  assign h l key v = Some (<[l := Obj (<[key := v]> props)]> h).
Proof.
  intros Hl Hkey. unfold assign.
  destruct (String.eqb_spec key "__proto__"); [done|]. by rewrite Hl.
Qed.

Lemma get_prop_own proto h l key props v :
  h !! l = Some (Obj props) -> props !! key = Some v ->
  get_prop proto h (VRef l) key = v.
Proof. intros Hl Hkey. unfold get_prop; simpl. by rewrite Hl, Hkey. Qed.

(** A heap that agrees with [h] on the cells of [h] extends it. *)
Lemma prefix_of_lookup (h h' : heap) :
  length h <= length h' ->
  (forall l, l < length h -> h' !! l = h !! l) ->
  h `prefix_of` h'.
Proof.
  intros Hlen Hsame. exists (drop (length h) h').
  rewrite <- (take_drop (length h) h') at 1. f_equal.
  apply list_eq. intros i.
  destruct (decide (i < length h)) as [Hi|Hi].
  - rewrite lookup_take_lt by done. by apply Hsame.
  - rewrite lookup_take_ge by lia. symmetry. apply lookup_ge_None. lia.
Qed.

Lemma prefix_lookup_lt (h h' : heap) l :
  h `prefix_of` h' -> l < length h -> h' !! l = h !! l.
Proof. intros [k ->] Hl. by apply lookup_app_l. Qed.

(** The tree of a value of a closed heap does not change when the heap
    grows. *)
Lemma snapshot_prefix depth (h h' : heap) v :
  closed_heap h -> h `prefix_of` h' -> closed_value (length h) v ->
  snapshot depth h' v = snapshot depth h v.
Proof.
  intros Hclosed Hpre. revert v.
  induction depth as [|d IH]; intros v Hv; simpl; [reflexivity|].
  destruct v as [| | | | |l|]; try reflexivity.
  simpl in Hv. rewrite (prefix_lookup_lt h h' l Hpre Hv).
  destruct (h !! l) as [c|] eqn:Hl; [|reflexivity].
  pose proof (Forall_lookup_1 _ _ _ _ Hclosed Hl) as Hc.
  destruct c as [props|elems]; simpl in Hc; f_equal.
  - apply map_fmap_ext. intros key x Hx. apply IH. by apply (Hc key).
  - apply Forall_fmap_ext_1. eapply Forall_impl; [exact Hc|]. intros x Hx. by apply IH.
Qed.

Lemma preserves_of_prefix (h h' : heap) obj :
  closed_heap h -> closed_value (length h) obj -> h `prefix_of` h' ->
  preserves h obj h'.
Proof.
  intros Hh Hobj Hpre. split; [done|].
  intros depth. by apply snapshot_prefix.
Qed.

(** The last write of a path. *)
Lemma written_last (h : heap) current props last v :
  h !! current = Some (Obj props) -> last <> "__proto__" ->
  exists h2, assign h current last v = Some h2
             /\ written h h2 current props [] last v v.
Proof.
  intros Hcur Hlast. pose proof (lookup_lt_Some _ _ _ Hcur) as Hlt.
  exists (<[current := Obj (<[last := v]> props)]> h).
  split; [by apply assign_obj|]. repeat split.
  - simpl. rewrite list_lookup_insert_eq by done. apply lookup_insert_eq.
  - intros l Hl. apply list_lookup_insert_ne. lia.
  - rewrite length_insert. simpl. lia.
  - by apply list_lookup_insert_eq.
Qed.

(** One iteration of the loops of [setJsonPath] and [setByPath]: the new
    cell [copy] is allocated, [current] is made to point to it, and the
    read that follows finds it; what the rest of the loop writes from the
    new cell on extends to a chain from [current]. *)
Lemma written_step proto (h : heap) current props part copy :
  h !! current = Some (Obj props) -> part <> "__proto__" ->
  exists h2,
    assign (h ++ [Obj copy]) current part (VRef (length h)) = Some h2
    /\ get_prop proto h2 (VRef current) part = VRef (length h)
    /\ h2 !! length h = Some (Obj copy)
    /\ forall h4 rest last v x,
         written h2 h4 (length h) copy rest last v x ->
         written h h4 current props (part :: rest) last v (VRef (length h)).
Proof.
  intros Hcur Hpart. pose proof (lookup_lt_Some _ _ _ Hcur) as Hlt.
  set (h1 := h ++ [Obj copy]).
  assert (h1 !! current = Some (Obj props)) as Hcur1
      by (subst h1; by rewrite lookup_app_l).
  assert (length h1 = S (length h)) as Hlen1
      by (subst h1; rewrite length_app; simpl; lia).
  set (h2 := <[current := Obj (<[part := VRef (length h)]> props)]> h1).
  assert (h2 !! current = Some (Obj (<[part := VRef (length h)]> props))) as Hcur2
      by (subst h2; apply list_lookup_insert_eq; lia).
  exists h2. split; [by apply assign_obj|]. split; [|split].
  - eapply get_prop_own; [exact Hcur2|apply lookup_insert_eq].
  - subst h2. rewrite list_lookup_insert_ne by lia.
    subst h1. by apply list_lookup_middle.
  - intros h4 rest last v x (Hchain & Hframe & Hlen & _).
    assert (h4 !! current = Some (Obj (<[part := VRef (length h)]> props))) as Hcur4
        by (rewrite Hframe by lia; exact Hcur2).
    repeat split.
    + exists (length h). split; [|exact Hchain].
      simpl. rewrite Hcur4. apply lookup_insert_eq.
    + intros l Hl. rewrite Hframe by lia.
      subst h2. rewrite list_lookup_insert_ne by lia.
      subst h1. apply lookup_app_l. lia.
    + rewrite Hlen. subst h2. rewrite length_insert, Hlen1. simpl. lia.
    + exact Hcur4.
Qed.

(** A non-empty list of segments is its inner segments and its last. *)
Lemma parts_inner_last (parts : list string) d :
  parts <> [] ->
  exists inner last,
    parts = inner ++ [last] /\ removelast parts = inner /\ List.last parts d = last.
Proof.
  intros Hne. destruct (exists_last Hne) as (inner & last & ->).
  exists inner, last. by rewrite removelast_last, last_last.
Qed.

(** After the writes along [inner ++ [last]] from a copy of the root
    allocated at the end of [h], the heap extends [h] and the root is
    rebuilt. *)
Lemma written_rebuilt (h h2 : heap) obj inner last v x :
  written (h ++ [Obj (own_props h obj)]) h2 (length h) (own_props h obj) inner last v x ->
  h `prefix_of` h2 /\ rebuilt h obj h2 (VRef (length h)) (inner ++ [last]).
Proof.
  intros (_ & Hframe & Hlen & Hroot).
  rewrite length_app in Hlen. simpl in Hlen. split.
  - apply prefix_of_lookup; [lia|].
    intros l Hl. rewrite Hframe by done. by apply lookup_app_l.
  - split; [reflexivity|]. split.
    + rewrite length_app. simpl. lia.
    + intros key Hkey. simpl. rewrite Hroot.
      apply lookup_insert_ne. intros <-. apply Hkey. by destruct inner.
Qed.

(** *** Closed values *)

Lemma indexed_lookup_elem (vs : list value) key x :
  indexed vs !! key = Some x -> x ∈ vs.
Proof.
  unfold indexed. intros H%elem_of_list_to_map_2.
  apply elem_of_lookup_imap in H as (i & y & [= _ ->] & Hy).
  by eapply list_elem_of_lookup_2.
Qed.

Lemma get_own_closed (h : heap) v key x :
  closed_heap h -> closed_value (length h) v ->
  get_own h v key = Some x -> closed_value (length h) x.
Proof.
  intros Hh Hv. destruct v as [| | | |s|l|]; simpl; try done.
  - destruct (String.eqb key "length"); [by intros [= <-]|].
    intros Hx%indexed_lookup_elem.
    apply list_elem_of_fmap in Hx as (c & -> & _). done.
  - destruct (h !! l) as [[props|elems]|] eqn:Hl; [| |done].
    + intros Hx. by apply (Forall_lookup_1 _ _ _ _ Hh Hl key).
    + destruct (String.eqb key "length"); [by intros [= <-]|].
      intros Hx%indexed_lookup_elem.
      pose proof (Forall_lookup_1 _ _ _ _ Hh Hl) as Hc. simpl in Hc.
      rewrite Forall_forall in Hc. by apply Hc.
Qed.

(** What [{...v}] copies out of a closed heap refers to that heap. *)
Lemma own_props_closed (h : heap) v :
  closed_heap h -> map_Forall (fun _ x => closed_value (length h) x) (own_props h v).
Proof.
  intros Hh key x. destruct v as [| | | |s|l|]; simpl; try done.
  - intros Hx%indexed_lookup_elem.
    apply list_elem_of_fmap in Hx as (c & -> & _). done.
  - destruct (h !! l) as [[props|elems]|] eqn:Hl; [| |done].
    + intros Hx. by apply (Forall_lookup_1 _ _ _ _ Hh Hl key).
    + intros Hx%indexed_lookup_elem.
      pose proof (Forall_lookup_1 _ _ _ _ Hh Hl) as Hc. simpl in Hc.
      rewrite Forall_forall in Hc. by apply Hc.
Qed.

(** What [{...v}] copies does not change when the heap grows. *)
Lemma own_props_frame (h hi : heap) v :
  (forall l, l < length h -> hi !! l = h !! l) ->
  closed_value (length h) v ->
  own_props hi v = own_props h v.
Proof.
  intros Hframe Hv. destruct v as [| | | | |l|]; try reflexivity.
  simpl in *. by rewrite Hframe.
Qed.

Lemma proto_closed_standard n : proto_closed n standard_proto.
Proof.
  intros k key v. unfold standard_proto.
  destruct (String.eqb key "__proto__"); [by intros [= <-]|].
  destruct (bool_decide _); [by intros [= <-]|done].
Qed.

(** *** The branch a write builds *)

Lemma copied_cons proto (h h' : heap) props new part rest v :
  rest <> [] ->
  copied proto h h' props new (part :: rest) v
  <-> exists next,
        length h <= next
        /\ h' !! new = Some (Obj (<[part := VRef next]> props))
        /\ copied proto h h' (replacement h (found proto props part)) next rest v.
Proof. by destruct rest. Qed.

(** What the loops of [setJsonPath] and [setByPath] read at [part] in
    the object they stand in, and what they decide on it. *)
Lemma read_found proto (h : heap) current props part :
  h !! current = Some (Obj props) ->
  get_prop proto h (VRef current) part = found proto props part
  /\ (has_prop proto h (VRef current) part = false ->
      found proto props part = VUndefined).
Proof.
  intros Hcur. unfold get_prop, has_prop, found, inherited, get_own, kind_of.
  rewrite Hcur. split; [reflexivity|].
  destruct (props !! part) as [x|].
  - rewrite bool_decide_true by eauto. done.
  - destruct (proto KObject part) as [x|]; [|done].
    rewrite (bool_decide_true (is_Some (Some x))) by eauto.
    by rewrite orb_true_r.
Qed.

(** The object put in place of a child found in a closed heap that has
    only grown is the replacement of that child as the first heap has
    it, and refers to the first heap only. *)
Lemma replacement_frame proto (h hi : heap) props part :
  closed_heap h -> proto_closed (length h) proto ->
  (forall l, l < length h -> hi !! l = h !! l) ->
  map_Forall (fun _ x => closed_value (length h) x) props ->
  replacement hi (found proto props part) = replacement h (found proto props part)
  /\ map_Forall (fun _ x => closed_value (length h) x)
       (replacement h (found proto props part)).
Proof.
  intros Hh Hproto Hframe Hprops.
  assert (closed_value (length h) (found proto props part)) as Hchild.
  { unfold found. destruct (props !! part) as [x|] eqn:Hx; [by apply (Hprops part)|].
    destruct (proto KObject part) as [x|] eqn:Hp; [|done]. by apply (Hproto KObject part). }
  unfold replacement. destruct (is_object_type _).
  - split; [by apply own_props_frame|by apply own_props_closed].
  - split; [reflexivity|apply map_Forall_empty].
Qed.

End JsFacts.

(** ** The runtime's path resolver *)

Module JsonPathFacts.
Import Js JsonPath JsStringFacts JsFacts.

(** What [validatePath] has checked when it returns. *)
Lemma validatePath_accepts path :
  validatePath path = None ->
  (path = "$" \/ JsString.startsWith "$." path = true)
  /\ JsString.any_char is_bracket path = false
  /\ JsString.includes ".." path = false
  /\ Forall (fun part => is_dangerous part = false) (path_parts path).
Proof.
  unfold validatePath. intros H.
  destruct (String.eqb path "$") eqn:Hdollar.
  - apply String.eqb_eq in Hdollar as ->. vm_compute. repeat split; auto.
  - destruct (JsString.startsWith "$." path) eqn:Hroot; [|discriminate H].
    cbn [negb andb] in H.
    destruct (JsString.any_char is_bracket path); [discriminate H|].
    destruct (JsString.includes ".." path); [discriminate H|].
    destruct (List.find is_dangerous (path_parts path)) eqn:Hfind; [discriminate H|].
    repeat split; auto.
    apply Forall_forall. intros part Hin.
    apply (List.find_none _ _ Hfind). by apply list_elem_of_In.
Qed.

Lemma accepted_parts_safe path :
  validatePath path = None -> Forall (fun part => part <> "__proto__") (path_parts path).
Proof.
  intros (_ & _ & _ & Hsafe)%validatePath_accepts.
  eapply Forall_impl; [exact Hsafe|]. intros part Hpart ->. discriminate.
Qed.

(** The segments of a rooted path are [$] and the parts the resolver
    walks. *)
Lemma split_rooted rest :
  JsString.split "." (String "$" (String "." rest)) = "$" :: path_parts (String "$" (String "." rest)).
Proof. reflexivity. Qed.

Lemma dangerous_path_rejected path :
  dangerous_path path -> is_root path = false /\ exists e, validatePath path = Some e.
Proof.
  intros Hdanger. split.
  - destruct (is_root path) eqn:Hroot; [|reflexivity]. exfalso.
    apply orb_prop in Hroot as [->%String.eqb_eq | ->%String.eqb_eq];
      destruct Hdanger as [(segment & Hin & Hd)|[H|H]]; try discriminate;
      apply list_elem_of_In in Hin; simpl in Hin;
      destruct Hin as [<-|[]]; discriminate.
  - destruct (validatePath path) as [e|] eqn:Hvalid; [eauto|]. exfalso.
    apply validatePath_accepts in Hvalid as (Hroot & Hbracket & Hdots & Hparts).
    destruct Hdanger as [(segment & Hin & Hd)|[H|H]].
    + destruct Hroot as [->|(rest & ->)%startsWith_root].
      * apply list_elem_of_In in Hin. simpl in Hin. destruct Hin as [<-|[]]. discriminate.
      * rewrite split_rooted in Hin. apply elem_of_cons in Hin as [->|Hin]; [discriminate|].
        rewrite Forall_forall in Hparts. rewrite (Hparts _ Hin) in Hd. discriminate.
    + congruence.
    + apply (includes_char "*" is_bracket) in H; [congruence|reflexivity].
Qed.

Section Engine.
Variable proto : kind -> string -> option value.

Lemma walk_chain inner :
  forall (h : heap) current last v,
    chain h current inner last v -> walk proto h (VRef current) (inner ++ [last]) = v.
Proof.
  induction inner as [|part rest IH]; intros h current last v Hchain;
    cbn [chain walk app is_nullish] in *.
  - unfold get_prop. by rewrite Hchain.
  - destruct Hchain as (next & Hown & Hchain).
    unfold get_prop. rewrite Hown. by apply IH.
Qed.

(** The writes of [setJsonPath] below the copy of the root. *)
Lemma descend_assign inner :
  forall (h : heap) current props last v,
    h !! current = Some (Obj props) ->
    Forall (fun part => part <> "__proto__") inner ->
    last <> "__proto__" ->
    exists h1 current' h2 x,
      descend proto h current inner = Some (h1, current')
      /\ assign h1 current' last v = Some h2
      /\ written h h2 current props inner last v x.
Proof.
  induction inner as [|part rest IH]; intros h current props last v Hcur Hsafe Hlast.
  - destruct (written_last h current props last v Hcur Hlast) as (h2 & Hassign & Hw).
    by exists h, current, h2, v.
  - apply Forall_cons in Hsafe as [Hpart Hrest].
    cbn [descend alloc].
    match goal with |- context [h ++ [Obj ?c]] => set (copy := c) end.
    destruct (written_step proto h current props part copy Hcur Hpart)
      as (h2 & Hassign & Hget & Hfresh & Hcons).
    rewrite Hassign. cbn [mbind option_bind]. rewrite Hget.
    destruct (IH h2 (length h) copy last v Hfresh Hrest Hlast)
      as (h3 & current' & h4 & x & Hdesc & Hassign' & Hw).
    exists h3, current', h4, (VRef (length h)). eauto.
Qed.

(** [setJsonPath] on a path that is accepted and is not the root. *)
Lemma setJsonPath_writes (h : heap) obj path v :
  validatePath path = None -> is_root path = false ->
  exists h',
    setJsonPath proto h obj path v = Return (VRef (length h), h')
    /\ walk proto h' (VRef (length h)) (path_parts path) = v
    /\ h `prefix_of` h'
    /\ rebuilt h obj h' (VRef (length h)) (path_parts path).
Proof.
  intros Hvalid Hroot. unfold setJsonPath. rewrite Hroot, Hvalid.
  pose proof (accepted_parts_safe path Hvalid) as Hsafe.
  destruct (parts_inner_last (path_parts path) "undefined")
    as (inner & last & Hparts & Hinner & Hlast); [apply split_nonempty|].
  unfold last_part. rewrite Hinner, Hlast, Hparts. rewrite Hparts in Hsafe.
  apply Forall_app in Hsafe as [Hsafe_inner Hsafe_last].
  apply Forall_inv in Hsafe_last.
  cbn [alloc].
  assert ((h ++ [Obj (own_props h obj)]) !! length h = Some (Obj (own_props h obj)))
    as Hcopy by (by apply list_lookup_middle).
  destruct (descend_assign inner _ _ _ last v Hcopy Hsafe_inner Hsafe_last)
    as (h1 & current & h2 & x & Hdesc & Hassign & Hw).
  rewrite Hdesc, Hassign. exists h2. split; [reflexivity|].
  split; [apply walk_chain, Hw|].
  by apply (written_rebuilt h h2 obj inner last v x).
Qed.

(** The writes of [setJsonPath] below the copy of the root build the
    branch of the path out of the old nodes: from a new object standing
    for a node with the properties [props], in a heap that has only
    grown since [h0]. *)
Lemma descend_copies inner :
  forall (h0 hi : heap) current props last v h1 current' h2,
    closed_heap h0 -> proto_closed (length h0) proto ->
    (forall l, l < length h0 -> hi !! l = h0 !! l) ->
    length h0 <= current ->
    hi !! current = Some (Obj props) ->
    map_Forall (fun _ x => closed_value (length h0) x) props ->
    Forall (fun part => part <> "__proto__") inner ->
    last <> "__proto__" ->
    descend proto hi current inner = Some (h1, current') ->
    assign h1 current' last v = Some h2 ->
    copied proto h0 h2 props current (inner ++ [last]) v.
Proof.
  induction inner as [|part rest IH];
    intros h0 hi current props last v h1 current' h2
           Hh Hproto Hframe Hnew Hcur Hprops Hsafe Hlast Hdesc Hassign.
  - injection Hdesc as <- <-.
    rewrite (assign_obj _ _ _ _ _ Hcur Hlast) in Hassign. injection Hassign as <-.
    simpl. apply list_lookup_insert_eq. by eapply lookup_lt_Some.
  - apply Forall_cons in Hsafe as [Hpart Hrest].
    pose proof (lookup_lt_Some _ _ _ Hcur) as Hlt.
    destruct (read_found proto hi current props part Hcur) as [Hread Habsent].
    destruct (replacement_frame proto h0 hi props part Hh Hproto Hframe Hprops)
      as [Hsame Hclosed].
    cbn [descend alloc] in Hdesc. rewrite Hread in Hdesc.
    assert ((if negb (has_prop proto hi (VRef current) part)
                || negb (is_object_type (found proto props part))
             then ∅ else own_props hi (found proto props part))
            = replacement h0 (found proto props part)) as Hcopy.
    { rewrite <- Hsame. unfold replacement.
      destruct (has_prop proto hi (VRef current) part) eqn:Hhas.
      - by destruct (is_object_type _).
      - by rewrite (Habsent eq_refl). }
    rewrite Hcopy in Hdesc. clear Hcopy.
    set (copy := replacement h0 (found proto props part)) in *.
    destruct (written_step proto hi current props part copy Hcur Hpart)
      as (h' & Hstep & Hget & Hfresh & _).
    rewrite Hstep in Hdesc. cbn [mbind option_bind] in Hdesc. rewrite Hget in Hdesc.
    assert (h' = <[current := Obj (<[part := VRef (length hi)]> props)]>
                   (hi ++ [Obj copy])) as Hh'.
    { rewrite (assign_obj (hi ++ [Obj copy]) current part (VRef (length hi)) props)
        in Hstep; [congruence| |done].
      by rewrite lookup_app_l. }
    assert (forall l, l < length h0 -> h' !! l = h0 !! l) as Hframe'.
    { intros l Hl. rewrite Hh', list_lookup_insert_ne by lia.
      rewrite lookup_app_l by lia. by apply Hframe. }
    destruct (descend_assign rest h' (length hi) copy last v Hfresh Hrest Hlast)
      as (h1' & c' & h2' & x & Hdesc' & Hassign' & Hw).
    rewrite Hdesc in Hdesc'. injection Hdesc' as <- <-.
    rewrite Hassign in Hassign'. injection Hassign' as <-.
    change ((part :: rest) ++ [last]) with (part :: (rest ++ [last])).
    apply copied_cons; [by destruct rest|].
    exists (length hi). split; [lia|]. split.
    + destruct Hw as (_ & Hkeep & _). rewrite Hkeep by lia.
      rewrite Hh'. apply list_lookup_insert_eq. rewrite length_app. simpl. lia.
    + apply (IH h0 h' (length hi) copy last v h1 current' h2); try done. lia.
Qed.

(** The tree [setJsonPath] returns is the input reconstructed along
    the path. *)
Lemma setJsonPath_reconstructs (h : heap) obj path v t' h' :
  closed_heap h -> proto_closed (length h) proto ->
  validatePath path = None -> is_root path = false ->
  setJsonPath proto h obj path v = Return (t', h') ->
  reconstructed proto h obj h' t' (path_parts path) v.
Proof.
  intros Hh Hproto Hvalid Hroot. unfold setJsonPath. rewrite Hroot, Hvalid.
  pose proof (accepted_parts_safe path Hvalid) as Hsafe.
  destruct (parts_inner_last (path_parts path) "undefined")
    as (inner & last & Hparts & Hinner & Hlast); [apply split_nonempty|].
  unfold last_part. rewrite Hinner, Hlast, Hparts. rewrite Hparts in Hsafe.
  apply Forall_app in Hsafe as [Hsafe_inner Hsafe_last].
  apply Forall_inv in Hsafe_last.
  cbn [alloc].
  destruct (descend proto _ (length h) inner) as [[h1 current]|] eqn:Hdesc; [|done].
  destruct (assign h1 current last v) as [h2|] eqn:Hassign; [|done].
  intros [= <- <-]. exists (length h). split; [reflexivity|]. split; [lia|].
  apply (descend_copies inner h (h ++ [Obj (own_props h obj)]) (length h)
           (own_props h obj) last v h1 current h2); try done.
  - intros l Hl. by apply lookup_app_l.
  - by apply list_lookup_middle.
  - by apply own_props_closed.
Qed.

(** Reading back what was set, for every accepted path. *)
Lemma set_get_roundtrip (h : heap) t p v :
  validatePath p = None ->
  exists t' h',
    setJsonPath proto h t p v = Return (t', h')
    /\ getJsonPath proto h' t' p = Return v.
Proof.
  intros Hvalid. destruct (is_root p) eqn:Hroot.
  - exists v, h. unfold setJsonPath, getJsonPath. by rewrite Hroot.
  - destruct (setJsonPath_writes h t p v Hvalid Hroot) as (h' & Hset & Hwalk & _).
    exists (VRef (length h)), h'. split; [exact Hset|].
    unfold getJsonPath. by rewrite Hroot, Hvalid, Hwalk.
Qed.

(** A copy of a plain object answers property reads as the object. *)
Lemma copy_reads_alike (h : heap) l props key :
  h !! l = Some (Obj props) ->
  let h0 := h ++ [Obj (own_props h (VRef l))] in
  get_prop proto h0 (VRef (length h)) key = get_prop proto h (VRef l) key
  /\ has_prop proto h0 (VRef (length h)) key = has_prop proto h (VRef l) key.
Proof.
  intros Hl h0.
  assert (h0 !! length h = Some (Obj props)) as Hcopy.
  { subst h0. simpl. rewrite Hl. by apply list_lookup_middle. }
  unfold get_prop, has_prop, inherited, get_own, kind_of.
  by rewrite Hcopy, Hl.
Qed.

(** Where the tree has no object at the first segment of a longer path
    (the property is missing, or holds a primitive), the tree returned
    has a new object there, with the next segment as its only
    property. *)
Lemma set_fills_gap (h : heap) l props p v part next rest :
  validatePath p = None ->
  path_parts p = part :: next :: rest ->
  h !! l = Some (Obj props) ->
  has_prop proto h (VRef l) part = false
  \/ is_object_type (get_prop proto h (VRef l) part) = false ->
  exists t' h' node x,
    setJsonPath proto h (VRef l) p v = Return (t', h')
    /\ get_prop proto h' t' part = VRef node
    /\ h' !! node = Some (Obj {[ next := x ]}).
Proof.
  intros Hvalid Hparts Hl Hgap.
  assert (is_root p = false) as Hroot.
  { destruct (is_root p) eqn:Hroot; [|done].
    apply orb_prop in Hroot as [->%String.eqb_eq | ->%String.eqb_eq]; discriminate. }
  pose proof (accepted_parts_safe p Hvalid) as Hsafe.
  unfold setJsonPath, last_part. rewrite Hroot, Hvalid, Hparts. rewrite Hparts in Hsafe.
  destruct (parts_inner_last (next :: rest) "undefined")
    as (inner & last & Htail & Hinner & Hlast); [done|].
  replace (removelast (part :: next :: rest)) with (part :: inner)
    by (rewrite <- Hinner; reflexivity).
  replace (List.last (part :: next :: rest) "undefined") with last
    by (rewrite <- Hlast; reflexivity).
  apply Forall_cons in Hsafe as [Hpart Hsafe]. rewrite Htail in Hsafe.
  apply Forall_app in Hsafe as [Hsafe_inner Hsafe_last].
  apply Forall_inv in Hsafe_last.
  cbn [alloc descend].
  destruct (copy_reads_alike h l props part Hl) as [Hget Hhas].
  cbv zeta in Hget, Hhas. rewrite Hget, Hhas.
  replace (negb (has_prop proto h (VRef l) part)
           || negb (is_object_type (get_prop proto h (VRef l) part))) with true
    by (destruct Hgap as [-> | ->]; [reflexivity|by rewrite orb_true_r]).
  set (h0 := h ++ [Obj (own_props h (VRef l))]).
  assert (h0 !! length h = Some (Obj props)) as Hcopy.
  { subst h0. simpl. rewrite Hl. by apply list_lookup_middle. }
  assert (length h0 = S (length h)) as Hlen0
      by (subst h0; rewrite length_app; simpl; lia).
  destruct (written_step proto h0 (length h) props part ∅ Hcopy Hpart)
    as (h2 & Hassign & Hread & Hfresh & Hcons).
  replace (own_props h (VRef l)) with props by (simpl; by rewrite Hl).
  rewrite Hassign. cbn [mbind option_bind]. rewrite Hread.
  destruct (descend_assign inner h2 (length h0) ∅ last v Hfresh Hsafe_inner Hsafe_last)
    as (h3 & current & h4 & x & Hdesc & Hassign' & Hw).
  rewrite Hdesc, Hassign'.
  destruct (Hcons h4 inner last v x Hw) as (_ & _ & _ & Hroot4).
  destruct Hw as (_ & _ & _ & Hnode).
  exists (VRef (length h)), h4, (length h0), x. split; [reflexivity|]. split.
  - eapply get_prop_own; [exact Hroot4|apply lookup_insert_eq].
  - rewrite Hnode, insert_empty.
    replace (hd last inner) with next; [reflexivity|].
    destruct inner as [|i inner]; injection Htail as -> _; reflexivity.
Qed.

End Engine.

End JsonPathFacts.

(** ** The SDK's dot-path helpers *)

Module SdkPathFacts.
Import Js SdkPath JsStringFacts JsFacts.

Section Engine.
Variable proto : kind -> string -> option value.

Lemma sdk_walk_chain inner :
  forall (h : heap) current last v,
    chain h current inner last v -> walk proto h (VRef current) (inner ++ [last]) = v.
Proof.
  induction inner as [|part rest IH]; intros h current last v Hchain;
    cbn [chain walk app is_nullish is_object_type typeof negb] in *.
  - unfold get_prop. by rewrite Hchain.
  - destruct Hchain as (next & Hown & Hchain).
    unfold get_prop. rewrite Hown. by apply IH.
Qed.

(** The writes of [setByPath] below the copy of the root. *)
Lemma sdk_descend_assign inner :
  forall (h : heap) current props last v,
    h !! current = Some (Obj props) ->
    Forall (fun part => part <> "__proto__") inner ->
    last <> "__proto__" ->
    exists h1 current' h2 x,
      descend proto h current inner = Some (h1, current')
      /\ assign h1 current' last v = Some h2
      /\ written h h2 current props inner last v x.
Proof.
  induction inner as [|part rest IH]; intros h current props last v Hcur Hsafe Hlast.
  - destruct (written_last h current props last v Hcur Hlast) as (h2 & Hassign & Hw).
    by exists h, current, h2, v.
  - apply Forall_cons in Hsafe as [Hpart Hrest].
    cbn [descend alloc].
    match goal with |- context [h ++ [Obj ?c]] => set (copy := c) end.
    destruct (written_step proto h current props part copy Hcur Hpart)
      as (h2 & Hassign & Hget & Hfresh & Hcons).
    rewrite Hassign. cbn [mbind option_bind]. rewrite Hget.
    destruct (IH h2 (length h) copy last v Hfresh Hrest Hlast)
      as (h3 & current' & h4 & x & Hdesc & Hassign' & Hw).
    exists h3, current', h4, (VRef (length h)). eauto.
Qed.

(** [setByPath] on a non-empty path without a [__proto__] segment. *)
Lemma setByPath_writes (h : heap) obj path v :
  path <> "" ->
  Forall (fun part => part <> "__proto__") (JsString.split "." path) ->
  exists h',
    setByPath proto h obj path v = Some (VRef (length h), h')
    /\ getByPath proto h' (VRef (length h)) path = v
    /\ h `prefix_of` h'
    /\ rebuilt h obj h' (VRef (length h)) (JsString.split "." path).
Proof.
  intros Hpath Hsafe. unfold setByPath, getByPath.
  destruct (String.eqb_spec path ""); [done|].
  destruct (parts_inner_last (JsString.split "." path) "undefined")
    as (inner & last & Hparts & Hinner & Hlast); [apply split_nonempty|].
  rewrite Hinner, Hlast, Hparts. rewrite Hparts in Hsafe.
  apply Forall_app in Hsafe as [Hsafe_inner Hsafe_last].
  apply Forall_inv in Hsafe_last.
  cbn [alloc].
  assert ((h ++ [Obj (own_props h obj)]) !! length h = Some (Obj (own_props h obj)))
    as Hcopy by (by apply list_lookup_middle).
  destruct (sdk_descend_assign inner _ _ _ last v Hcopy Hsafe_inner Hsafe_last)
    as (h1 & current & h2 & x & Hdesc & Hassign & Hw).
  rewrite Hdesc. cbn [mbind option_bind]. rewrite Hassign. cbn [mbind option_bind].
  exists h2. split; [reflexivity|].
  split; [apply sdk_walk_chain, Hw|].
  by apply (written_rebuilt h h2 obj inner last v x).
Qed.

(** The writes of [setByPath] below the copy of the root build the
    branch of the path out of the old nodes. *)
Lemma sdk_descend_copies inner :
  forall (h0 hi : heap) current props last v h1 current' h2,
    closed_heap h0 -> proto_closed (length h0) proto ->
    (forall l, l < length h0 -> hi !! l = h0 !! l) ->
    length h0 <= current ->
    hi !! current = Some (Obj props) ->
    map_Forall (fun _ x => closed_value (length h0) x) props ->
    Forall (fun part => part <> "__proto__") inner ->
    last <> "__proto__" ->
    descend proto hi current inner = Some (h1, current') ->
    assign h1 current' last v = Some h2 ->
    copied proto h0 h2 props current (inner ++ [last]) v.
Proof.
  induction inner as [|part rest IH];
    intros h0 hi current props last v h1 current' h2
           Hh Hproto Hframe Hnew Hcur Hprops Hsafe Hlast Hdesc Hassign.
  - injection Hdesc as <- <-.
    rewrite (assign_obj _ _ _ _ _ Hcur Hlast) in Hassign. injection Hassign as <-.
    simpl. apply list_lookup_insert_eq. by eapply lookup_lt_Some.
  - apply Forall_cons in Hsafe as [Hpart Hrest].
    pose proof (lookup_lt_Some _ _ _ Hcur) as Hlt.
    destruct (read_found proto hi current props part Hcur) as [Hread _].
    destruct (replacement_frame proto h0 hi props part Hh Hproto Hframe Hprops)
      as [Hsame Hclosed].
    cbn [descend alloc] in Hdesc. rewrite Hread in Hdesc.
    assert ((if match found proto props part with VUndefined => true | _ => false end
                || negb (is_object_type (found proto props part))
             then ∅ else own_props hi (found proto props part))
            = replacement h0 (found proto props part)) as Hcopy.
    { rewrite <- Hsame. unfold replacement. by destruct (found proto props part) as [| | | | | |? []]. }
    rewrite Hcopy in Hdesc. clear Hcopy.
    set (copy := replacement h0 (found proto props part)) in *.
    destruct (written_step proto hi current props part copy Hcur Hpart)
      as (h' & Hstep & Hget & Hfresh & _).
    rewrite Hstep in Hdesc. cbn [mbind option_bind] in Hdesc. rewrite Hget in Hdesc.
    assert (h' = <[current := Obj (<[part := VRef (length hi)]> props)]>
                   (hi ++ [Obj copy])) as Hh'.
    { rewrite (assign_obj (hi ++ [Obj copy]) current part (VRef (length hi)) props)
        in Hstep; [congruence| |done].
      by rewrite lookup_app_l. }
    assert (forall l, l < length h0 -> h' !! l = h0 !! l) as Hframe'.
    { intros l Hl. rewrite Hh', list_lookup_insert_ne by lia.
      rewrite lookup_app_l by lia. by apply Hframe. }
    destruct (sdk_descend_assign rest h' (length hi) copy last v Hfresh Hrest Hlast)
      as (h1' & c' & h2' & x & Hdesc' & Hassign' & Hw).
    rewrite Hdesc in Hdesc'. injection Hdesc' as <- <-.
    rewrite Hassign in Hassign'. injection Hassign' as <-.
    change ((part :: rest) ++ [last]) with (part :: (rest ++ [last])).
    apply copied_cons; [by destruct rest|].
    exists (length hi). split; [lia|]. split.
    + destruct Hw as (_ & Hkeep & _). rewrite Hkeep by lia.
      rewrite Hh'. apply list_lookup_insert_eq. rewrite length_app. simpl. lia.
    + apply (IH h0 h' (length hi) copy last v h1 current' h2); try done. lia.
Qed.

(** The tree [setByPath] returns is the input reconstructed along the
    path. *)
Lemma setByPath_reconstructs (h : heap) obj path v t' h' :
  closed_heap h -> proto_closed (length h) proto ->
  path <> "" ->
  Forall (fun part => part <> "__proto__") (JsString.split "." path) ->
  setByPath proto h obj path v = Some (t', h') ->
  reconstructed proto h obj h' t' (JsString.split "." path) v.
Proof.
  intros Hh Hproto Hpath Hsafe. unfold setByPath.
  destruct (String.eqb_spec path ""); [done|].
  destruct (parts_inner_last (JsString.split "." path) "undefined")
    as (inner & last & Hparts & Hinner & Hlast); [apply split_nonempty|].
  rewrite Hinner, Hlast, Hparts. rewrite Hparts in Hsafe.
  apply Forall_app in Hsafe as [Hsafe_inner Hsafe_last].
  apply Forall_inv in Hsafe_last.
  cbn [alloc].
  destruct (descend proto _ (length h) inner) as [[h1 current]|] eqn:Hdesc; [|done].
  cbn [mbind option_bind].
  destruct (assign h1 current last v) as [h2|] eqn:Hassign; [|done].
  cbn [mbind option_bind].
  intros [= <- <-]. exists (length h). split; [reflexivity|]. split; [lia|].
  apply (sdk_descend_copies inner h (h ++ [Obj (own_props h obj)]) (length h)
           (own_props h obj) last v h1 current h2); try done.
  - intros l Hl. by apply lookup_app_l.
  - by apply list_lookup_middle.
  - by apply own_props_closed.
Qed.

End Engine.

End SdkPathFacts.

(** ** Properties of the path resolvers *)

Module PathProperties.
Import Js JsonPath JsStringFacts JsFacts JsonPathFacts SdkPathFacts.

(** The runtime's resolver rejects every dangerous path, on read and on
    write, whatever the tree and the value. *)
Lemma runtime_rejects_dangerous_paths proto (h : heap) t v path :
  dangerous_path path ->
  (exists e, getJsonPath proto h t path = Throw e)
  /\ (exists e, setJsonPath proto h t path v = Throw e).
Proof.
  intros (Hroot & e & Hvalid)%dangerous_path_rejected.
  unfold getJsonPath, setJsonPath. rewrite Hroot, Hvalid. eauto.
Qed.

(** C1 (the SDK departs from the specification).  The specification
    wants every path with a dangerous key, a [..] or a [*] rejected with
    [InvalidPath] on every entry point.  The runtime's resolver does so
    (lemma above); the SDK's [setByPath] and [getByPath] check nothing: a
    path through [constructor] and [prototype], a path with [..] and a
    path with [*] are written into the tree and read back. *)
Theorem sdk_paths_not_rejected proto (h : heap) t v :
  Forall (fun path =>
            exists t' h',
              SdkPath.setByPath proto h t path v = Some (t', h')
              /\ SdkPath.getByPath proto h' t' path = v)
         ["constructor.prototype.polluted"; "a..b"; "items.*"].
Proof.
  repeat apply Forall_cons_2; [| | |apply Forall_nil_2].
  all: match goal with
       | |- context [SdkPath.setByPath _ _ _ ?path _] =>
           destruct (setByPath_writes proto h t path v) as (h' & Hset & Hget & _);
           [discriminate
           |vm_compute; repeat constructor; discriminate
           |exists (VRef (length h)), h'; by split]
       end.
Qed.

(** C2.  On every path [validatePath] accepts, [setJsonPath] returns, and
    [getJsonPath] with the same path on the tree it returned yields the
    value that was set, whatever the tree held along the path.  Where the
    tree, a plain object, has no object at the first segment of a longer
    path, the tree returned has a new object there whose only property
    is the next segment. *)
Theorem get_after_set proto (h : heap) t p v :
  validatePath p = None ->
  (exists t' h',
      setJsonPath proto h t p v = Return (t', h')
      /\ getJsonPath proto h' t' p = Return v)
  /\ (forall l props part next rest,
         t = VRef l -> h !! l = Some (Obj props) ->
         path_parts p = part :: next :: rest ->
         has_prop proto h t part = false
         \/ is_object_type (get_prop proto h t part) = false ->
         exists t' h' node x,
           setJsonPath proto h t p v = Return (t', h')
           /\ get_prop proto h' t' part = VRef node
           /\ h' !! node = Some (Obj {[ next := x ]})).
Proof.
  intros Hvalid. split.
  - by apply set_get_roundtrip.
  - intros l props part next rest -> Hl Hparts Hgap.
    by apply (set_fills_gap proto h l props p v part next rest).
Qed.

Lemma get_after_set_witness :
  let h := [Obj {[ "application" := VStr "draft" ]}] in
  (exists t' h',
      setJsonPath standard_proto h (VRef 0) "$.application.quote.premium" (VNum 120)
      = Return (t', h')
      /\ getJsonPath standard_proto h' t' "$.application.quote.premium"
         = Return (VNum 120))
  /\ (exists t' h' node x,
         setJsonPath standard_proto h (VRef 0) "$.application.quote.premium" (VNum 120)
         = Return (t', h')
         /\ get_prop standard_proto h' t' "application" = VRef node
         /\ h' !! node = Some (Obj {[ "quote" := x ]})).
Proof.
  intros h.
  destruct (get_after_set standard_proto h (VRef 0) "$.application.quote.premium"
              (VNum 120) eq_refl) as [Hround Hgap].
  split; [exact Hround|].
  apply (Hgap 0 {[ "application" := VStr "draft" ]} "application" "quote" ["premium"]);
    try reflexivity.
  right. reflexivity.
Defined.

(** C3.  [setJsonPath] (on an accepted path) and [setByPath] (on a path
    without a [__proto__] segment) leave every object of the heap as it
    was, so the caller's tree reads the same before and after; unless the
    path is the root (or empty), what they return is a new object, with
    one new object per segment of the path and every other property
    shared with the input.  The new objects are the nodes of the input
    along the path, each with the one property of the path replaced: at
    every depth the properties off the path hold the values the input
    holds there, the same references for objects (the engine's built-ins
    being no objects of the heap). *)
Theorem set_does_not_mutate proto (h : heap) t v :
  closed_heap h -> closed_value (length h) t ->
  (forall p,
      validatePath p = None ->
      exists t' h',
        setJsonPath proto h t p v = Return (t', h')
        /\ preserves h t h'
        /\ (is_root p = false -> rebuilt h t h' t' (path_parts p))
        /\ (is_root p = false -> proto_closed (length h) proto ->
            reconstructed proto h t h' t' (path_parts p) v))
  /\ (forall p,
         Forall (fun part => part <> "__proto__") (JsString.split "." p) ->
         exists t' h',
           SdkPath.setByPath proto h t p v = Some (t', h')
           /\ preserves h t h'
           /\ (p <> "" -> rebuilt h t h' t' (JsString.split "." p))
           /\ (p <> "" -> proto_closed (length h) proto ->
               reconstructed proto h t h' t' (JsString.split "." p) v)).
Proof.
  intros Hh Ht. split; intros p Hp.
  - destruct (is_root p) eqn:Hroot.
    + exists v, h. unfold setJsonPath. rewrite Hroot.
      split; [reflexivity|]. split; [by apply preserves_of_prefix|].
      split; discriminate.
    + destruct (setJsonPath_writes proto h t p v Hp Hroot) as (h' & Hset & _ & Hpre & Hnew).
      exists (VRef (length h)), h'. split; [exact Hset|].
      split; [by apply preserves_of_prefix|]. split; [done|].
      intros _ Hproto. by apply (setJsonPath_reconstructs proto h t p v).
  - destruct (String.eqb_spec p "") as [->|Hne].
    + exists t, h. split; [reflexivity|]. split; [by apply preserves_of_prefix|done].
    + destruct (setByPath_writes proto h t p v Hne Hp) as (h' & Hset & _ & Hpre & Hnew).
      exists (VRef (length h)), h'. split; [exact Hset|].
      split; [by apply preserves_of_prefix|]. split; [done|].
      intros _ Hproto. by apply (setByPath_reconstructs proto h t p v).
Qed.

Lemma set_does_not_mutate_witness :
  let h := [Obj {[ "a" := VRef 1 ]}; Obj {[ "b" := VNum 1 ]}] in
  (exists t' h',
      setJsonPath standard_proto h (VRef 0) "$.a.c" (VNum 2) = Return (t', h')
      /\ preserves h (VRef 0) h'
      /\ (is_root "$.a.c" = false -> rebuilt h (VRef 0) h' t' (path_parts "$.a.c"))
      /\ reconstructed standard_proto h (VRef 0) h' t' (path_parts "$.a.c") (VNum 2))
  /\ (exists t' h',
         SdkPath.setByPath standard_proto h (VRef 0) "a.c" (VNum 2) = Some (t', h')
         /\ preserves h (VRef 0) h'
         /\ ("a.c" <> "" -> rebuilt h (VRef 0) h' t' (JsString.split "." "a.c"))
         /\ reconstructed standard_proto h (VRef 0) h' t' (JsString.split "." "a.c")
              (VNum 2)).
Proof.
  intros h.
  destruct (set_does_not_mutate standard_proto h (VRef 0) (VNum 2)) as [Hruntime Hsdk].
  - repeat constructor; intros key x [_ <-]%lookup_singleton_Some; simpl; lia.
  - simpl. lia.
  - split.
    + destruct (Hruntime "$.a.c" eq_refl) as (t' & h' & Hset & Hkeep & Hnew & Hshare).
      exists t', h'. split; [exact Hset|]. split; [exact Hkeep|]. split; [exact Hnew|].
      apply Hshare; [reflexivity|apply proto_closed_standard].
    + destruct (Hsdk "a.c") as (t' & h' & Hset & Hkeep & Hnew & Hshare).
      { vm_compute. repeat constructor; discriminate. }
      exists t', h'. split; [exact Hset|]. split; [exact Hkeep|]. split; [exact Hnew|].
      apply Hshare; [discriminate|apply proto_closed_standard].
Defined.

End PathProperties.

(** ** Conditions *)

Module ConditionProperties.
Import Js Conditions.

Lemma compound_and proto regexp_test (h : heap) conditions data :
  evaluateCondition proto regexp_test h (CompoundCondition "and" conditions) data
  = forallb (fun c => evaluateCondition proto regexp_test h c data) conditions.
Proof.
  cbn [evaluateCondition]. rewrite String.eqb_refl.
  induction conditions as [|c rest IH]; simpl; [reflexivity|]. by rewrite IH.
Qed.

Lemma compound_or proto regexp_test (h : heap) conditions data :
  evaluateCondition proto regexp_test h (CompoundCondition "or" conditions) data
  = existsb (fun c => evaluateCondition proto regexp_test h c data) conditions.
Proof.
  cbn [evaluateCondition].
  replace (String.eqb "or" "and") with false by reflexivity. rewrite String.eqb_refl.
  induction conditions as [|c rest IH]; simpl; [reflexivity|]. by rewrite IH.
Qed.

(** C5.  A compound condition over the children [A] and [B] is their
    conjunction under [and] and their disjunction under [or]; under any
    other [logic] it is false, whatever the children. *)
Theorem compound_condition proto regexp_test (h : heap) s A B :
  let evaluate c := evaluateCondition proto regexp_test h c s in
  evaluate (CompoundCondition "and" [A; B]) = evaluate A && evaluate B
  /\ evaluate (CompoundCondition "or" [A; B]) = evaluate A || evaluate B
  /\ forall logic conditions,
      logic <> "and" -> logic <> "or" ->
      evaluate (CompoundCondition logic conditions) = false.
Proof.
  intros evaluate. subst evaluate. cbv beta. split; [|split].
  - rewrite compound_and. simpl. by rewrite andb_true_r.
  - rewrite compound_or. simpl. by rewrite orb_false_r.
  - intros logic conditions Hand Hor. cbn [evaluateCondition].
    destruct (String.eqb_spec logic "and"); [done|].
    by destruct (String.eqb_spec logic "or").
Qed.

Lemma compound_condition_witness :
  let evaluate c := evaluateCondition no_proto (fun _ _ => None) [Obj ∅] c (VRef 0) in
  let A := SimpleCondition "a" "empty" VNull in
  let B := SimpleCondition "a" "notEmpty" VNull in
  evaluate (CompoundCondition "and" [A; B]) = evaluate A && evaluate B
  /\ evaluate (CompoundCondition "or" [A; B]) = evaluate A || evaluate B
  /\ evaluate (CompoundCondition "xor" [A; B]) = false.
Proof.
  intros evaluate A B.
  destruct (compound_condition no_proto (fun _ _ => None) [Obj ∅] (VRef 0) A B)
    as (Hand & Hor & Hother).
  split; [exact Hand|]. split; [exact Hor|].
  apply Hother; discriminate.
Defined.

(** C6.  Under [gt], [gte], [lt] and [lte] a simple condition is the
    comparison of the field value with the comparison value when both are
    numbers, and false as soon as one of them is not; so [a.b > 5] holds
    in [{a: {b: 10}}] and fails in [{a: {b: "x"}}]. *)
Theorem numeric_comparison proto regexp_test :
  (forall (h : heap) field operator compare value data,
      comparison operator = Some compare ->
      let fieldValue := SdkPath.getByPath proto h data field in
      let result :=
        evaluateCondition proto regexp_test h (SimpleCondition field operator value) data in
      (forall a b, fieldValue = VNum a -> value = VNum b -> result = compare a b)
      /\ (is_number fieldValue && is_number value = false -> result = false))
  /\ evaluateCondition proto regexp_test
       [Obj {[ "a" := VRef 1 ]}; Obj {[ "b" := VNum 10 ]}]
       (SimpleCondition "a.b" "gt" (VNum 5)) (VRef 0) = true
  /\ evaluateCondition proto regexp_test
       [Obj {[ "a" := VRef 1 ]}; Obj {[ "b" := VStr "x" ]}]
       (SimpleCondition "a.b" "gt" (VNum 5)) (VRef 0) = false.
Proof.
  split; [|split; vm_compute; reflexivity].
  intros h field operator compare value data Hop fieldValue result.
  subst result. cbn [evaluateCondition]. unfold evaluateSimpleCondition.
  fold fieldValue. unfold comparison in Hop.
  repeat match type of Hop with
         | (if String.eqb ?x ?y then _ else _) = _ =>
             destruct (String.eqb_spec x y) as [->|_]
         end; try discriminate Hop; injection Hop as <-.
  all: match goal with
       | |- context [operator_of ?name] =>
           let op := eval vm_compute in (operator_of name) in
           change (operator_of name) with op
       end.
  all: split; [intros a b -> ->; reflexivity|].
  all: destruct fieldValue, value; simpl; intros; done.
Qed.

Lemma numeric_comparison_witness :
  let h := [Obj {[ "age" := VNum 17 ]}] in
  evaluateCondition standard_proto (fun _ _ => None) h
    (SimpleCondition "age" "gte" (VNum 18)) (VRef 0) = Z.geb 17 18
  /\ evaluateCondition standard_proto (fun _ _ => None) h
       (SimpleCondition "age" "lt" (VStr "18")) (VRef 0) = false.
Proof.
  intros h.
  destruct (numeric_comparison standard_proto (fun _ _ => None)) as [Hgeneral _].
  split.
  - destruct (Hgeneral h "age" "gte" Z.geb (VNum 18) (VRef 0) eq_refl) as [Hnumbers _].
    apply (Hnumbers 17%Z 18%Z); reflexivity.
  - destruct (Hgeneral h "age" "lt" Z.ltb (VStr "18") (VRef 0) eq_refl) as [_ Hother].
    apply Hother. reflexivity.
Defined.

End ConditionProperties.

(** ** Routing and the wizard store *)

Module StoreProperties.
Import Js JsonPath Routing WizardStore JsonPathFacts.

Lemma findIndex_first {A : Type} (p : A -> bool) before x after :
  Forall (fun y => p y = false) before -> p x = true ->
  findIndex p (before ++ x :: after) = Some (length before).
Proof.
  intros Hbefore Hx. induction Hbefore as [|y before Hy _ IH]; simpl.
  - by rewrite Hx.
  - by rewrite Hy, IH.
Qed.

Lemma getNextStepIdLinear_next steps current next :
  next_in_order steps current next -> getNextStepIdLinear steps current = Some next.
Proof.
  intros (before & s & s' & after & -> & Hbefore & Hs & Hs').
  unfold getNextStepIdLinear. rewrite findIndex_first.
  - rewrite length_app. simpl.
    destruct (Nat.eqb_spec (length before) (length before + S (S (length after)) - 1));
      [lia|].
    rewrite lookup_app_r by lia.
    replace (length before + 1 - length before) with 1 by lia. simpl. by rewrite Hs'.
  - eapply Forall_impl; [exact Hbefore|]. intros x Hx. by apply String.eqb_neq.
  - by apply String.eqb_eq.
Qed.

Lemma truthy_nonempty s : s <> "" -> truthy (Some s) = Some s.
Proof. intros Hs. unfold truthy. by destruct (String.eqb_spec s ""). Qed.

(** C7.  In the three-step wizard, from [s1]: [goNext] reaches [s2] with
    history [[s1]], again [s3] with [[s1; s2]], [goBack] returns to [s2]
    with [[s1]] and [goNext] reaches [s3] with [[s1; s2]] again.  In
    general a [goNext] that finds a next step moves to the step declared
    after the current one and pushes the current one, and [goBack] pops
    the last entry of the history into the current step. *)
Theorem linear_navigation :
  (forall sid state,
      let st0 := {| wizard := Some s123; sessionId := sid; currentStep := Some "s1";
                    stepHistory := []; sessionState := state;
                    isLoading := false; error := None |} in
      let st1 := fst (goNext st0) in
      let st2 := fst (goNext st1) in
      let st3 := goBack st2 in
      let st4 := fst (goNext st3) in
      (currentStep st1, stepHistory st1) = (Some "s2", ["s1"])
      /\ (currentStep st2, stepHistory st2) = (Some "s3", ["s1"; "s2"])
      /\ (currentStep st3, stepHistory st3) = (Some "s2", ["s1"])
      /\ (currentStep st4, stepHistory st4) = (Some "s3", ["s1"; "s2"]))
  /\ (forall st steps current next,
         wizard st = Some steps -> currentStep st = Some current ->
         current <> "" -> next <> "" ->
         next_in_order steps current next ->
         currentStep (fst (goNext st)) = Some next
         /\ stepHistory (fst (goNext st)) = stepHistory st ++ [current])
  /\ (forall st history previous,
         stepHistory st = history ++ [previous] ->
         currentStep (goBack st) = Some previous
         /\ stepHistory (goBack st) = history).
Proof.
  split; [|split].
  - intros sid state. cbv zeta. by vm_compute.
  - intros st steps current next Hwizard Hcurrent Hcur Hnext Horder.
    unfold goNext. rewrite Hwizard, Hcurrent, (truthy_nonempty current Hcur).
    rewrite (getNextStepIdLinear_next _ _ _ Horder), (truthy_nonempty next Hnext).
    unfold goToStep. rewrite Hcurrent, (truthy_nonempty current Hcur). by split.
  - intros st history previous Hhistory. unfold goBack. rewrite Hhistory.
    destruct (history ++ [previous]) eqn:Heq; [by destruct history|].
    rewrite <- Heq. simpl. by rewrite last_last, removelast_last.
Qed.

Lemma linear_navigation_witness :
  let st := {| wizard := Some s123; sessionId := Some "session-1";
               currentStep := Some "s2"; stepHistory := ["s1"];
               sessionState := VNull; isLoading := false; error := None |} in
  (currentStep (fst (goNext st)) = Some "s3"
   /\ stepHistory (fst (goNext st)) = stepHistory st ++ ["s2"])
  /\ (currentStep (goBack st) = Some "s1" /\ stepHistory (goBack st) = []).
Proof.
  intros st. destruct linear_navigation as (_ & Hnext & Hback). split.
  - apply (Hnext st s123 "s2" "s3"); try reflexivity; try discriminate.
    exists [ {| id := "s1"; pageRef := None |} ],
           {| id := "s2"; pageRef := None |}, {| id := "s3"; pageRef := None |}, [].
    split; [reflexivity|]. split; [|split; reflexivity].
    repeat constructor. discriminate.
  - apply (Hback st [] "s1"). reflexivity.
Defined.

(** C8 (the store departs from the specification).  On the last step of
    the three-step wizard [goNext] sets no next step, and returns at
    [// Last step - trigger onComplete]: the store is what it was, with
    [s3] still the current step, and no request is sent, so that nothing
    records or signals a completed session. *)
Theorem advance_on_last_step sid history state :
  let st := {| wizard := Some s123; sessionId := sid; currentStep := Some "s3";
               stepHistory := history; sessionState := state;
               isLoading := false; error := None |} in
  isLastStep s123 "s3" = true /\ goNext st = (st, []).
Proof. split; reflexivity. Qed.

Section Engine.
Variable proto : kind -> string -> option Js.value.

Lemma set_sessionState_same st : set_sessionState st (sessionState st) = st.
Proof. by destruct st. Qed.

Lemma foldl_failed (updates : list StateUpdate) :
  (forall e, foldl (fold_set_step proto) (Throw e) updates = Throw e)
  /\ foldl (fold_set_step proto) Unmodelled updates = Unmodelled.
Proof. induction updates as [|u rest [IHt IHu]]; simpl; auto. Qed.

(** The loop and the fold go through the same calls of [setJsonPath]. *)
Lemma apply_loop_fold updates :
  forall (h : heap) st s,
    foldl (fold_set_step proto) (Return (set_sessionState st s, h)) updates
    = match apply_loop proto h s updates with
      | Return (s', h') => Return (set_sessionState st s', h')
      | Throw e => Throw e
      | Unmodelled => Unmodelled
      end.
Proof.
  induction updates as [|u rest IH]; intros h st s; [reflexivity|].
  cbn [foldl apply_loop fold_set_step]. unfold setStateAtPath.
  cbn [sessionState set_sessionState].
  destruct (setJsonPath proto h s (path u) (value u)) as [[s1 h1]| |].
  - apply (IH h1 st s1).
  - apply foldl_failed.
  - apply foldl_failed.
Qed.

Lemma apply_loop_snoc updates :
  forall (h : heap) s u,
    apply_loop proto h s (updates ++ [u])
    = match apply_loop proto h s updates with
      | Return (s1, h1) => setJsonPath proto h1 s1 (path u) (value u)
      | Throw e => Throw e
      | Unmodelled => Unmodelled
      end.
Proof.
  induction updates as [|u0 rest IH]; intros h s u; simpl.
  - by destruct (setJsonPath proto h s (path u) (value u)) as [[s1 h1]| |].
  - destruct (setJsonPath proto h s (path u0) (value u0)) as [[s1 h1]| |]; auto.
Qed.

(** C10.  [applyStateUpdates] is the fold of the store's single-path set
    over the batch, in list order, from the current session state; an
    empty batch returns the store as it is; and the last patch of a
    batch wins: after the batch, its path reads its value, also when an
    earlier patch wrote the same path. *)
Theorem batch_is_sequential_fold (h : heap) st :
  (forall updates,
      applyStateUpdates proto h st updates = applyStateUpdates_spec proto h st updates)
  /\ applyStateUpdates proto h st [] = Return (st, h)
  /\ (forall updates p v st1 h1,
         applyStateUpdates proto h st updates = Return (st1, h1) ->
         validatePath p = None ->
         exists st' h',
           applyStateUpdates proto h st (updates ++ [ {| path := p; value := v |} ])
           = Return (st', h')
           /\ getStateAtPath proto h' st' p = Return v)
  /\ (forall p v1 v2,
         validatePath p = None ->
         exists st' h',
           applyStateUpdates proto h st
             [ {| path := p; value := v1 |}; {| path := p; value := v2 |} ]
           = Return (st', h')
           /\ getStateAtPath proto h' st' p = Return v2).
Proof.
  assert (forall updates p v st1 h1,
             applyStateUpdates proto h st updates = Return (st1, h1) ->
             validatePath p = None ->
             exists st' h',
               applyStateUpdates proto h st (updates ++ [ {| path := p; value := v |} ])
               = Return (st', h')
               /\ getStateAtPath proto h' st' p = Return v) as Hlast.
  { intros updates p v st1 h1 Hbatch Hvalid.
    unfold applyStateUpdates in *. rewrite apply_loop_snoc.
    destruct (apply_loop proto h (sessionState st) updates) as [[s1 h1']| |];
      try discriminate Hbatch.
    cbn [path value].
    destruct (set_get_roundtrip proto h1' s1 p v Hvalid) as (t' & h' & Hset & Hget).
    rewrite Hset. exists (set_sessionState st t'), h'. by split. }
  split; [|split; [|split]].
  - intros updates. unfold applyStateUpdates, applyStateUpdates_spec.
    pose proof (apply_loop_fold updates h st (sessionState st)) as Hfold.
    rewrite set_sessionState_same in Hfold. by rewrite Hfold.
  - unfold applyStateUpdates. simpl. by rewrite set_sessionState_same.
  - exact Hlast.
  - intros p v1 v2 Hvalid.
    destruct (Hlast [] p v1 st h) as (st1 & h1 & Hfirst & _); [|done|].
    { unfold applyStateUpdates. simpl. by rewrite set_sessionState_same. }
    by apply (Hlast [ {| path := p; value := v1 |} ] p v2 st1 h1).
Qed.

End Engine.

Lemma batch_is_sequential_fold_witness :
  let st := {| wizard := Some s123; sessionId := None; currentStep := Some "s1";
               stepHistory := []; sessionState := VRef 0;
               isLoading := false; error := None |} in
  let h := [Obj ∅] in
  (exists st' h',
      applyStateUpdates standard_proto h st
        ([] ++ [ {| path := "$.application.plan"; value := VStr "basic" |} ])
      = Return (st', h')
      /\ getStateAtPath standard_proto h' st' "$.application.plan" = Return (VStr "basic"))
  /\ (exists st' h',
         applyStateUpdates standard_proto h st
           [ {| path := "$.application.plan"; value := VStr "basic" |};
             {| path := "$.application.plan"; value := VStr "premium" |} ]
         = Return (st', h')
         /\ getStateAtPath standard_proto h' st' "$.application.plan"
            = Return (VStr "premium")).
Proof.
  intros st h.
  destruct (batch_is_sequential_fold standard_proto h st) as (_ & _ & Hlast & Htwice).
  split.
  - apply (Hlast [] "$.application.plan" (VStr "basic") st h); reflexivity.
  - apply (Htwice "$.application.plan" (VStr "basic") (VStr "premium")). reflexivity.
Defined.

End StoreProperties.

(** ** Page references *)

Module PageLoaderProperties.
Import PageLoader JsString JsStringFacts.

(** C9.  A string without exactly one [@] is rejected ([key], [a@b@c]);
    a key and a version joined by one [@] parse into that key and that
    version. *)
Theorem page_reference_notation :
  (forall pageRef, count_char "@" pageRef <> 1 -> parsePageRef pageRef = InvalidPageRef)
  /\ (forall pageKey version,
         count_char "@" pageKey = 0 -> count_char "@" version = 0 ->
         parsePageRef (String.append pageKey (String "@" version)) = PageRef pageKey version)
  /\ parsePageRef "key" = InvalidPageRef
  /\ parsePageRef "a@b@c" = InvalidPageRef.
Proof.
  split; [|split; [|split; reflexivity]].
  - intros pageRef Hcount. unfold parsePageRef.
    pose proof (split_length "@" pageRef) as Hlen.
    destruct (split "@" pageRef) as [|a [|b [|c rest]]]; simpl in Hlen; try reflexivity.
    lia.
  - intros pageKey version Hkey Hversion. unfold parsePageRef.
    by rewrite (split_app "@" pageKey version Hkey), (split_no_sep "@" version Hversion).
Qed.

Lemma page_reference_notation_witness :
  parsePageRef "page.travel.selectPlan" = InvalidPageRef
  /\ parsePageRef (String.append "page.travel.selectPlan" (String "@" "v1"))
     = PageRef "page.travel.selectPlan" "v1".
Proof.
  destruct page_reference_notation as (Hbad & Hgood & _). split.
  - apply Hbad. vm_compute. lia.
  - apply Hgood; reflexivity.
Defined.

End PageLoaderProperties.

(** ** The definition store *)

Module DefinitionProperties.
Import Definitions.

Lemma find_snoc {A : Type} (f : A -> bool) (l : list A) x :
  List.find f (l ++ [x])
  = match List.find f l with
    | Some y => Some y
    | None => if f x then Some x else None
    end.
Proof. induction l as [|y l IH]; simpl; [done|]. by destruct (f y). Qed.

Lemma find_filter {A : Type} (f g : A -> bool) (l : list A) :
  (forall x, f x = true -> g x = true) ->
  List.find f (List.filter g l) = List.find f l.
Proof.
  intros Hfg. induction l as [|y l IH]; simpl; [done|].
  destruct (g y) eqn:Hg; simpl.
  - by rewrite IH.
  - destruct (f y) eqn:Hf; [|done]. rewrite (Hfg y Hf) in Hg. discriminate.
Qed.

Section Store.
Variable body : Type.
Variable checksum_of : body -> string.
Variable schema_valid : def_kind -> body -> bool.
Variable page_refs : body -> list (string * nat).

#[local] Abbreviation store := (store body).
#[local] Abbreviation row := (row body).

Lemma version_eqb_eq a b : version_eqb a b = true -> a = b.
Proof.
  destruct a, b; simpl; try done. by intros ->%Nat.eqb_eq.
Qed.

Lemma published_not_draft k key n k' key' (r : row) :
  is_row k key (Published n) r = true -> negb (is_draft_of k' key' r) = true.
Proof.
  unfold is_draft_of, is_row.
  intros [_ Hv%version_eqb_eq]%andb_prop. rewrite Hv. simpl.
  by rewrite andb_false_r.
Qed.

(** A published row has a number up to the highest one. *)
Lemma max_version_ge (s : store) k key n :
  is_Some (getPublished s k key n) -> n <= max_version s k key.
Proof.
  unfold getPublished, max_version, published_versions, is_row.
  induction s as [|r s IH]; cbn -[Nat.max]; [by intros [? ?]|].
  destruct (kind_eqb (row_kind r) k && String.eqb (row_key r) key); cbn -[Nat.max].
  - destruct (row_version r) as [|m]; cbn -[Nat.max]; [exact IH|].
    destruct (Nat.eqb_spec m n) as [->|_]; cbn -[Nat.max]; [lia|].
    intros H. specialize (IH H). lia.
  - exact IH.
Qed.

Lemma getPublished_above (s : store) k key n :
  max_version s k key < n -> getPublished s k key n = None.
Proof.
  intros Hn. destruct (getPublished s k key n) eqn:Hget; [|done].
  assert (n <= max_version s k key) by (apply max_version_ge; by rewrite Hget). lia.
Qed.

Lemma published_versions_cons (r : row) (s : store) k key :
  published_versions (r :: s) k key
  = match (if kind_eqb (row_kind r) k && String.eqb (row_key r) key
           then match row_version r with Published n => Some n | Draft => None end
           else None) with
    | Some n => n :: published_versions s k key
    | None => published_versions s k key
    end.
Proof. reflexivity. Qed.

(** Editing drafts leaves the published rows alone. *)
Lemma published_versions_no_draft (s : store) k key k' key' :
  published_versions (List.filter (fun r => negb (is_draft_of k' key' r)) s) k key
  = published_versions s k key.
Proof.
  induction s as [|r s IH]; [done|]. cbn [List.filter].
  destruct (negb (is_draft_of k' key' r)) eqn:Hdraft.
  - by rewrite !published_versions_cons, IH.
  - rewrite published_versions_cons, IH. unfold is_draft_of, is_row in Hdraft.
    apply negb_false_iff in Hdraft.
    apply andb_prop in Hdraft as [_ Hv%version_eqb_eq]. rewrite Hv.
    by destruct (kind_eqb (row_kind r) k && String.eqb (row_key r) key).
Qed.

Lemma edit_keeps_published (s : store) e k key :
  (forall n, getPublished (apply_edit checksum_of s e) k key n = getPublished s k key n)
  /\ max_version (apply_edit checksum_of s e) k key = max_version s k key.
Proof.
  destruct e as [k' key' b author|k' key']; cbn [apply_edit];
    unfold upsertDraft, deleteDraft, max_version.
  - split.
    + intros n. unfold getPublished. rewrite find_snoc, find_filter.
      * unfold is_row at 2 3. cbn [row_version version_eqb]. rewrite andb_false_r.
        by destruct (List.find _ s).
      * intros r. apply published_not_draft.
    + f_equal. unfold published_versions at 1. rewrite omap_app. cbn [omap list_omap row_version row_kind row_key].
      fold (published_versions (List.filter (fun r => negb (is_draft_of k' key' r)) s) k key).
      rewrite published_versions_no_draft.
      destruct (kind_eqb k' k && String.eqb key' key); apply app_nil_r.
  - split.
    + intros n. apply find_filter. intros r. apply published_not_draft.
    + f_equal. apply published_versions_no_draft.
Qed.

Lemma edits_keep_published es :
  forall (s : store) k key,
    (forall n, getPublished (apply_edits checksum_of s es) k key n = getPublished s k key n)
    /\ max_version (apply_edits checksum_of s es) k key = max_version s k key.
Proof.
  induction es as [|e es IH]; intros s k key; [done|].
  unfold apply_edits in *. simpl.
  destruct (IH (apply_edit checksum_of s e) k key) as [Hget Hmax].
  destruct (edit_keeps_published s e k key) as [Hget' Hmax'].
  split; [intros n; by rewrite Hget|congruence].
Qed.

(** What a successful publish did. *)
Lemma publish_inv (s : store) k key s' n c :
  publish checksum_of schema_valid page_refs s k key = PublishedAs s' n c ->
  exists draft r,
    getDraft s k key = Some draft
    /\ n = S (max_version s k key)
    /\ c = checksum_of (row_body draft)
    /\ s' = s ++ [r]
    /\ is_row k key (Published n) r = true
    /\ row_body r = row_body draft
    /\ row_checksum r = c.
Proof.
  unfold publish, createNextPublishedVersion.
  destruct (getDraft s k key) as [draft|]; [|discriminate].
  destruct (negb (schema_valid k (row_body draft))); [discriminate|].
  destruct (missing_refs page_refs s k (row_body draft)); [|discriminate].
  intros [= <- <- <-]. eexists draft, _. repeat split; try reflexivity.
  unfold is_row. simpl. rewrite Nat.eqb_refl, String.eqb_refl.
  by destruct k.
Qed.

Lemma getPublished_new (s : store) k key n (r : row) :
  is_row k key (Published n) r = true -> max_version s k key < n ->
  getPublished (s ++ [r]) k key n = Some r.
Proof.
  intros Hr Hn. unfold getPublished. rewrite find_snoc.
  fold (getPublished s k key n). by rewrite (getPublished_above s k key n Hn), Hr.
Qed.

Lemma getPublished_old (s : store) k key n (r r' : row) :
  getPublished s k key n = Some r -> getPublished (s ++ [r']) k key n = Some r.
Proof.
  intros Hr. unfold getPublished in *. by rewrite find_snoc, Hr.
Qed.

Lemma max_version_snoc (s : store) k key n (r : row) :
  is_row k key (Published n) r = true ->
  max_version (s ++ [r]) k key = Nat.max (max_version s k key) n.
Proof.
  intros Hr. unfold max_version, published_versions. rewrite omap_app.
  cbn [omap list_omap]. unfold is_row in Hr.
  apply andb_prop in Hr as [-> Hv%version_eqb_eq]. rewrite Hv.
  fold (published_versions s k key).
  generalize (published_versions s k key). intros vs.
  induction vs as [|v vs IH]; cbn -[Nat.max] in *; lia.
Qed.

(** C4.  Two publishes of one key in sequence, with any edits of
    drafts in between: the second version number is the successor of
    the first ([v1] then [v2] for a key published for the first time),
    and the row of the first version, read after the second publish, is
    the row the first publish created, with the body of the draft of
    that moment and its checksum. *)
Theorem publish_twice (s : store) k key s1 n1 c1 edits s2 n2 c2 :
  publish checksum_of schema_valid page_refs s k key = PublishedAs s1 n1 c1 ->
  publish checksum_of schema_valid page_refs (apply_edits checksum_of s1 edits) k key
  = PublishedAs s2 n2 c2 ->
  n1 < n2
  /\ (published_versions s k key = [] ->
      version_tag (Published n1) = "v1" /\ version_tag (Published n2) = "v2")
  /\ exists draft r,
      getDraft s k key = Some draft
      /\ getPublished s1 k key n1 = Some r
      /\ getPublished s2 k key n1 = Some r
      /\ row_body r = row_body draft
      /\ row_checksum r = checksum_of (row_body draft)
      /\ c1 = checksum_of (row_body draft).
Proof.
  intros (draft & r & Hdraft & -> & -> & -> & Hr & Hbody & Hsum)%publish_inv
         (draft2 & r2 & _ & -> & _ & -> & _)%publish_inv.
  destruct (edits_keep_published edits (s ++ [r]) k key) as [Hget Hmax].
  assert (getPublished (s ++ [r]) k key (S (max_version s k key)) = Some r) as Hfirst
      by (apply getPublished_new; [done|lia]).
  assert (max_version (s ++ [r]) k key = S (max_version s k key)) as Hmax1
      by (rewrite (max_version_snoc s k key _ r Hr); lia).
  rewrite Hmax, Hmax1. split; [lia|]. split.
  - intros Hnone. unfold max_version. rewrite Hnone. by vm_compute.
  - exists draft, r. repeat split; try done.
    apply getPublished_old. by rewrite Hget.
Qed.

End Store.

Lemma publish_twice_witness :
  let checksum_of := String.append "sha256:" in
  let valid := fun (_ : def_kind) (_ : string) => true in
  let refs := fun (_ : string) => @nil (string * nat) in
  let s := upsertDraft checksum_of [] Wizard "travel-insurance-uk" "one step" "test-user" in
  let edits := [Upsert Wizard "travel-insurance-uk" "two steps" "test-user"] in
  let s1 := fst (createNextPublishedVersion s Wizard "travel-insurance-uk" "one step"
                   "sha256:one step" "test-user") in
  let s2 := fst (createNextPublishedVersion (apply_edits checksum_of s1 edits) Wizard
                   "travel-insurance-uk" "two steps" "sha256:two steps" "test-user") in
  1 < 2
  /\ (published_versions s Wizard "travel-insurance-uk" = [] ->
      version_tag (Published 1) = "v1" /\ version_tag (Published 2) = "v2")
  /\ exists draft r,
      getDraft s Wizard "travel-insurance-uk" = Some draft
      /\ getPublished s1 Wizard "travel-insurance-uk" 1 = Some r
      /\ getPublished s2 Wizard "travel-insurance-uk" 1 = Some r
      /\ row_body r = row_body draft
      /\ row_checksum r = checksum_of (row_body draft)
      /\ "sha256:one step" = checksum_of (row_body draft).
Proof.
  intros checksum_of valid refs s edits s1 s2.
  apply (publish_twice string checksum_of valid refs s Wizard "travel-insurance-uk"
           s1 1 "sha256:one step" edits s2 2 "sha256:two steps"); reflexivity.
Defined.

End DefinitionProperties.

(** ** More on the SDK's dot-path helpers *)

Module SdkMoreProperties.
Import Js SdkPath SdkDelete JsStringFacts JsFacts SdkPathFacts.

(** One iteration of a copying loop, cell by cell. *)
Lemma copy_step proto (h : heap) current props part copy :
  h !! current = Some (Obj props) -> part <> "__proto__" ->
  exists h2,
    assign (h ++ [Obj copy]) current part (VRef (length h)) = Some h2
    /\ get_prop proto h2 (VRef current) part = VRef (length h)
    /\ h2 !! length h = Some (Obj copy)
    /\ h2 !! current = Some (Obj (<[part := VRef (length h)]> props))
    /\ length h2 = S (length h)
    /\ forall l, l < current -> h2 !! l = h !! l.
Proof.
  intros Hcur Hpart. pose proof (lookup_lt_Some _ _ _ Hcur) as Hlt.
  assert ((h ++ [Obj copy]) !! current = Some (Obj props)) as Hcur1
      by (by rewrite lookup_app_l).
  assert (length (h ++ [Obj copy]) = S (length h)) as Hlen1
      by (rewrite length_app; simpl; lia).
  exists (<[current := Obj (<[part := VRef (length h)]> props)]> (h ++ [Obj copy])).
  assert ((<[current := Obj (<[part := VRef (length h)]> props)]> (h ++ [Obj copy]))
            !! current = Some (Obj (<[part := VRef (length h)]> props))) as Hcur2
      by (apply list_lookup_insert_eq; lia).
  split; [by apply assign_obj|]. split; [|split; [|split; [|split]]].
  - eapply get_prop_own; [exact Hcur2|apply lookup_insert_eq].
  - rewrite list_lookup_insert_ne by lia. by apply list_lookup_middle.
  - exact Hcur2.
  - by rewrite length_insert.
  - intros l Hl. rewrite list_lookup_insert_ne by lia. apply lookup_app_l. lia.
Qed.

(** [getByPath] gives up on a value that is no object as soon as a
    segment is left. *)
Lemma walk_not_object proto (h : heap) child part rest :
  match child with VUndefined => true | _ => false end || negb (is_object_type child) = true ->
  walk proto h child (part :: rest) = VUndefined.
Proof. destruct child as [| | | | | |name []]; simpl; try done. Qed.

Section Engine.
Variable proto : kind -> string -> option value.

(** What the loop of [deleteByPath] and the [delete] after it leave. *)
Lemma delete_along inner :
  forall (h : heap) current props last,
    h !! current = Some (Obj props) ->
    Forall (fun part => part <> "__proto__") inner ->
    exists h1 reached h2 props',
      descend proto h current inner = Some (h1, reached)
      /\ match reached with
         | None => Some h1
         | Some c => remove_prop h1 c last
         end = Some h2
      /\ (proto KObject last = None ->
          walk proto h2 (VRef current) (inner ++ [last]) = VUndefined)
      /\ (forall l, l < current -> h2 !! l = h !! l)
      /\ length h <= length h2
      /\ h2 !! current = Some (Obj props')
      /\ forall key, key <> hd last inner -> props' !! key = props !! key.
Proof.
  induction inner as [|part rest IH]; intros h current props last Hcur Hsafe.
  - pose proof (lookup_lt_Some _ _ _ Hcur) as Hlt.
    exists h, (Some current), (<[current := Obj (delete last props)]> h), (delete last props).
    assert ((<[current := Obj (delete last props)]> h) !! current
            = Some (Obj (delete last props))) as Hcur2
        by (by apply list_lookup_insert_eq).
    split; [reflexivity|]. split; [unfold remove_prop; by rewrite Hcur|].
    split; [|split; [|split; [|split]]].
    + intros Hlast. cbn [app walk is_nullish is_object_type typeof negb].
      unfold get_prop, inherited, get_own, kind_of. rewrite Hcur2.
      by rewrite lookup_delete_eq, Hlast.
    + intros l Hl. apply list_lookup_insert_ne. lia.
    + by rewrite length_insert.
    + exact Hcur2.
    + intros key Hkey. by apply lookup_delete_ne.
  - apply Forall_cons in Hsafe as [Hpart Hrest].
    cbn [descend].
    destruct (match get_prop proto h (VRef current) part with
              | VUndefined => true | _ => false end
              || negb (is_object_type (get_prop proto h (VRef current) part))) eqn:Hchild.
    + exists h, None, h, props. split; [reflexivity|]. split; [reflexivity|].
      split; [|split; [|split; [|split]]]; try done.
      intros _. cbn [app walk is_nullish is_object_type typeof negb].
      destruct (rest ++ [last]) as [|x xs] eqn:Hrest'; [by destruct rest|].
      by apply walk_not_object.
    + cbn [alloc].
      destruct (copy_step proto h current props part
                  (own_props h (get_prop proto h (VRef current) part)) Hcur Hpart)
        as (h2 & Hassign & Hread & Hfresh & Hcur2 & Hlen2 & Hframe2).
      rewrite Hassign. cbn [mbind option_bind]. rewrite Hread.
      pose proof (lookup_lt_Some _ _ _ Hcur) as Hlt.
      destruct (IH h2 (length h) _ last Hfresh Hrest)
        as (h3 & reached & h4 & props4 & Hdesc & Hfinish & Hwalk & Hframe & Hlen & _).
      exists h3, reached, h4, (<[part := VRef (length h)]> props).
      assert (h4 !! current = Some (Obj (<[part := VRef (length h)]> props))) as Hcur4
          by (rewrite Hframe by lia; exact Hcur2).
      split; [exact Hdesc|]. split; [exact Hfinish|].
      split; [|split; [|split; [|split]]].
      * intros Hlast. cbn [app walk is_nullish is_object_type typeof negb].
        rewrite (get_prop_own proto h4 current part _ (VRef (length h)) Hcur4)
          by apply lookup_insert_eq.
        by apply Hwalk.
      * intros l Hl. rewrite Hframe by lia. apply Hframe2. lia.
      * lia.
      * exact Hcur4.
      * intros key Hkey. by apply lookup_insert_ne.
Qed.

(** [deleteByPath] on a non-empty path without a [__proto__] segment. *)
Lemma deleteByPath_deletes (h : heap) obj path :
  path <> "" ->
  Forall (fun part => part <> "__proto__") (JsString.split "." path) ->
  exists h',
    deleteByPath proto h obj path = Some (VRef (length h), h')
    /\ (proto KObject (List.last (JsString.split "." path) "undefined") = None ->
        getByPath proto h' (VRef (length h)) path = VUndefined)
    /\ h `prefix_of` h'
    /\ forall key,
        key <> hd "" (JsString.split "." path) ->
        own_props h' (VRef (length h)) !! key = own_props h obj !! key.
Proof.
  intros Hpath Hsafe. unfold deleteByPath, getByPath.
  destruct (String.eqb_spec path ""); [done|].
  destruct (parts_inner_last (JsString.split "." path) "undefined")
    as (inner & last & Hparts & Hinner & Hlast); [apply split_nonempty|].
  rewrite Hinner, Hlast, Hparts. rewrite Hparts in Hsafe.
  apply Forall_app in Hsafe as [Hsafe_inner _].
  cbn [alloc].
  assert ((h ++ [Obj (own_props h obj)]) !! length h = Some (Obj (own_props h obj)))
    as Hcopy by (by apply list_lookup_middle).
  destruct (delete_along inner _ _ _ last Hcopy Hsafe_inner)
    as (h1 & reached & h2 & props' & Hdesc & Hfinish & Hwalk & Hframe & Hlen & Hroot & Hrest).
  rewrite length_app in Hlen. simpl in Hlen.
  assert (h `prefix_of` h2) as Hprefix.
  { apply prefix_of_lookup; [lia|].
    intros l Hl. rewrite Hframe by done. by apply lookup_app_l. }
  assert (forall key, key <> hd "" (inner ++ [last]) ->
                      own_props h2 (VRef (length h)) !! key = own_props h obj !! key)
    as Hshared.
  { intros key Hkey. simpl. rewrite Hroot. apply Hrest.
    intros ->. apply Hkey. by destruct inner. }
  destruct inner as [|part rest].
  - cbn [app length Nat.eqb hd]. cbn [descend] in Hdesc. injection Hdesc as <- <-.
    rewrite Hfinish. cbn [mbind option_bind]. by exists h2.
  - replace (Nat.eqb (length ((part :: rest) ++ [last])) 1) with false
      by (rewrite length_app; simpl; symmetry; apply Nat.eqb_neq; lia).
    rewrite Hdesc. cbn [mbind option_bind].
    destruct reached as [c|]; cbn [mbind option_bind] in *.
    + rewrite Hfinish. cbn [mbind option_bind]. by exists h2.
    + injection Hfinish as <-. by exists h1.
Qed.

(** After [deleteByPath], the path is gone: [getByPath] finds nothing
    there and [hasPath] is false (the last segment being no name that
    [Object.prototype] defines). *)
Theorem delete_then_get (h : heap) t path :
  path <> "" ->
  Forall (fun part => part <> "__proto__") (JsString.split "." path) ->
  proto KObject (List.last (JsString.split "." path) "undefined") = None ->
  exists t' h',
    deleteByPath proto h t path = Some (t', h')
    /\ getByPath proto h' t' path = VUndefined
    /\ hasPath proto h' t' path = false.
Proof.
  intros Hpath Hsafe Hlast.
  destruct (deleteByPath_deletes h t path Hpath Hsafe) as (h' & Hdel & Hget & _).
  exists (VRef (length h)), h'. split; [exact Hdel|].
  unfold hasPath. by rewrite (Hget Hlast).
Qed.

(** On a path without a [__proto__] segment, [deleteByPath] leaves
    every object of the heap as it was: the caller's tree reads the
    same before and after.  On the empty path it returns the input
    itself and allocates nothing; on every other path the tree
    returned is a new object that shares every property but the first
    segment of the path with the input. *)
Theorem delete_does_not_mutate (h : heap) t path :
  closed_heap h -> closed_value (length h) t ->
  Forall (fun part => part <> "__proto__") (JsString.split "." path) ->
  exists t' h',
    deleteByPath proto h t path = Some (t', h')
    /\ preserves h t h'
    /\ (path = "" -> t' = t /\ h' = h)
    /\ (path <> "" ->
        t' = VRef (length h)
        /\ forall key,
            key <> hd "" (JsString.split "." path) ->
            own_props h' t' !! key = own_props h t !! key).
Proof.
  intros Hh Ht Hsafe. destruct (String.eqb_spec path "") as [->|Hpath].
  - exists t, h. split; [reflexivity|].
    split; [by apply preserves_of_prefix|]. by split.
  - destruct (deleteByPath_deletes h t path Hpath Hsafe)
      as (h' & Hdel & _ & Hpre & Hshared).
    exists (VRef (length h)), h'. split; [exact Hdel|].
    split; [by apply preserves_of_prefix|]. split; [done|]. by split.
Qed.

(** [hasPath] after [setByPath] tells whether the value set is
    [undefined]. *)
Theorem has_after_set (h : heap) t path v :
  path <> "" ->
  Forall (fun part => part <> "__proto__") (JsString.split "." path) ->
  exists t' h',
    setByPath proto h t path v = Some (t', h')
    /\ hasPath proto h' t' path = match v with VUndefined => false | _ => true end.
Proof.
  intros Hpath Hsafe.
  destruct (setByPath_writes proto h t path v Hpath Hsafe) as (h' & Hset & Hget & _).
  exists (VRef (length h)), h'. split; [exact Hset|].
  unfold hasPath. by rewrite Hget.
Qed.

End Engine.

Lemma delete_then_get_witness :
  let h := [Obj {[ "step1" := VRef 1 ]}; Obj {[ "firstName" := VStr "Ada" ]}] in
  exists t' h',
    deleteByPath standard_proto h (VRef 0) "step1.firstName" = Some (t', h')
    /\ getByPath standard_proto h' t' "step1.firstName" = VUndefined
    /\ hasPath standard_proto h' t' "step1.firstName" = false.
Proof.
  intros h. apply delete_then_get.
  - discriminate.
  - vm_compute. repeat constructor; discriminate.
  - reflexivity.
Defined.

Lemma delete_does_not_mutate_witness :
  let h := [Obj {[ "step1" := VRef 1 ]}; Obj {[ "firstName" := VStr "Ada" ]}] in
  exists t' h',
    deleteByPath standard_proto h (VRef 0) "step1.firstName" = Some (t', h')
    /\ preserves h (VRef 0) h'
    /\ ("step1.firstName" = "" -> t' = VRef 0 /\ h' = h)
    /\ ("step1.firstName" <> "" ->
        t' = VRef (length h)
        /\ forall key,
            key <> hd "" (JsString.split "." "step1.firstName") ->
            own_props h' t' !! key = own_props h (VRef 0) !! key).
Proof.
  intros h. apply delete_does_not_mutate.
  - repeat constructor; intros key x [_ <-]%lookup_singleton_Some; simpl; lia.
  - simpl. lia.
  - vm_compute. repeat constructor; discriminate.
Defined.

Lemma has_after_set_witness :
  exists t' h',
    setByPath standard_proto [Obj ∅] (VRef 0) "step1.firstName" VUndefined = Some (t', h')
    /\ hasPath standard_proto h' t' "step1.firstName" = false.
Proof.
  apply (has_after_set standard_proto [Obj ∅] (VRef 0) "step1.firstName" VUndefined).
  - discriminate.
  - vm_compute. repeat constructor; discriminate.
Defined.

End SdkMoreProperties.

(** ** More on the runtime's path resolver *)

Module JsonPathMoreProperties.
Import Js JsonPath PathGrammar JsStringFacts JsFacts JsonPathFacts.

(** *** Reads in a heap that has grown *)

Section Engine.
Variable proto : kind -> string -> option value.

Lemma get_prop_closed (h : heap) v key :
  closed_heap h -> proto_closed (length h) proto -> closed_value (length h) v ->
  closed_value (length h) (get_prop proto h v key).
Proof.
  intros Hh Hproto Hv. unfold get_prop.
  destruct (get_own h v key) as [x|] eqn:Hown; [by eapply get_own_closed|].
  unfold inherited. destruct (kind_of h v) as [k|]; [|done].
  destruct (proto k key) as [x|] eqn:Hp; [|done]. by apply (Hproto k key).
Qed.

Lemma get_prop_prefix (h h' : heap) v key :
  h `prefix_of` h' -> closed_value (length h) v ->
  get_prop proto h' v key = get_prop proto h v key.
Proof.
  intros Hpre Hv. unfold get_prop, inherited, get_own, kind_of.
  destruct v as [| | | | |l|]; try reflexivity.
  simpl in Hv. by rewrite (prefix_lookup_lt h h' l Hpre Hv).
Qed.

(** The walk of [getJsonPath] from a value of a closed heap finds the
    same in every heap that extends it. *)
Lemma walk_prefix parts :
  forall (h h' : heap) v,
    closed_heap h -> proto_closed (length h) proto ->
    h `prefix_of` h' -> closed_value (length h) v ->
    walk proto h' v parts = walk proto h v parts.
Proof.
  induction parts as [|part rest IH]; intros h h' v Hh Hproto Hpre Hv; [done|].
  cbn [walk]. destruct (is_nullish v); [done|].
  rewrite (get_prop_prefix h h' v part Hpre Hv).
  apply IH; try done. by apply get_prop_closed.
Qed.

(** The root [setJsonPath] returns: a plain object, the copy of the
    input changed in the first segment of the path. *)
Lemma setJsonPath_root (h : heap) obj path v :
  validatePath path = None -> is_root path = false ->
  exists h' x,
    setJsonPath proto h obj path v = Return (VRef (length h), h')
    /\ h `prefix_of` h'
    /\ h' !! length h
       = Some (Obj (<[hd "" (path_parts path) := x]> (own_props h obj))).
Proof.
  intros Hvalid Hroot. unfold setJsonPath. rewrite Hroot, Hvalid.
  pose proof (accepted_parts_safe path Hvalid) as Hsafe.
  destruct (parts_inner_last (path_parts path) "undefined")
    as (inner & last & Hparts & Hinner & Hlast); [apply split_nonempty|].
  unfold last_part. rewrite Hinner, Hlast, Hparts. rewrite Hparts in Hsafe.
  apply Forall_app in Hsafe as [Hsafe_inner Hsafe_last].
  apply Forall_inv in Hsafe_last.
  cbn [alloc].
  assert ((h ++ [Obj (own_props h obj)]) !! length h = Some (Obj (own_props h obj)))
    as Hcopy by (by apply list_lookup_middle).
  destruct (descend_assign proto inner _ _ _ last v Hcopy Hsafe_inner Hsafe_last)
    as (h1 & current & h2 & x & Hdesc & Hassign & Hw).
  rewrite Hdesc, Hassign. exists h2, x. split; [reflexivity|].
  destruct (written_rebuilt h h2 obj inner last v x Hw) as [Hpre _].
  split; [exact Hpre|].
  destruct Hw as (_ & _ & _ & Hcell). rewrite Hcell.
  by destruct inner.
Qed.

(** Setting one branch leaves the others readable as before: after
    [setJsonPath] on a path [p], [getJsonPath] on a path [q] that
    starts with another segment returns what it returned on the input
    tree. *)
Theorem set_keeps_other_branches (h : heap) l props p q v :
  closed_heap h -> proto_closed (length h) proto ->
  h !! l = Some (Obj props) ->
  validatePath p = None -> is_root p = false ->
  validatePath q = None -> is_root q = false ->
  hd "" (path_parts p) <> hd "" (path_parts q) ->
  exists t' h',
    setJsonPath proto h (VRef l) p v = Return (t', h')
    /\ getJsonPath proto h' t' q = getJsonPath proto h (VRef l) q.
Proof.
  intros Hh Hproto Hl Hp Hrootp Hq Hrootq Hdiff.
  destruct (setJsonPath_root h (VRef l) p v Hp Hrootp) as (h' & x & Hset & Hpre & Hcell).
  exists (VRef (length h)), h'. split; [exact Hset|].
  unfold getJsonPath. rewrite Hrootq, Hq. f_equal.
  destruct (path_parts q) as [|q1 qs] eqn:Hparts;
    [by apply split_nonempty in Hparts|].
  simpl in Hdiff. cbn [walk is_nullish].
  assert (get_prop proto h' (VRef (length h)) q1 = get_prop proto h (VRef l) q1) as ->.
  { unfold get_prop, inherited, get_own, kind_of. rewrite Hcell, Hl.
    simpl. rewrite Hl. by rewrite lookup_insert_ne. }
  apply walk_prefix; try done.
  apply get_prop_closed; try done. simpl. by eapply lookup_lt_Some.
Qed.


(** The two walks agree wherever the SDK's finds something. *)
Lemma sdk_walk_agrees parts :
  forall (h : heap) v,
    SdkPath.walk proto h v parts <> VUndefined ->
    walk proto h v parts = SdkPath.walk proto h v parts.
Proof.
  induction parts as [|part rest IH]; intros h v Hfound; [done|].
  cbn [walk SdkPath.walk] in *.
  destruct (is_nullish v); [done|].
  destruct (negb (is_object_type v)); [done|]. by apply IH.
Qed.

(** Where the SDK's [getByPath] finds something under a dotted path,
    the runtime's [getJsonPath] finds the same under that path behind
    [$.], if [validatePath] accepts it. *)
Theorem grammars_agree (h : heap) t path :
  validatePath (String "$" (String "." path)) = None ->
  SdkPath.getByPath proto h t path <> VUndefined ->
  getJsonPath proto h t (String "$" (String "." path))
  = Return (SdkPath.getByPath proto h t path).
Proof.
  intros Hvalid Hfound. unfold getJsonPath. rewrite Hvalid.
  replace (is_root (String "$" (String "." path))) with false by reflexivity.
  unfold SdkPath.getByPath in *.
  destruct (String.eqb path ""); [done|].
  f_equal. by apply sdk_walk_agrees.
Qed.

End Engine.

Lemma set_keeps_other_branches_witness :
  let h := [Obj {[ "application" := VRef 1 ]}; Obj {[ "name" := VStr "Ada" ]}] in
  exists t' h',
    setJsonPath standard_proto h (VRef 0) "$.context.locale" (VStr "en") = Return (t', h')
    /\ getJsonPath standard_proto h' t' "$.application.name"
       = getJsonPath standard_proto h (VRef 0) "$.application.name".
Proof.
  intros h.
  apply (set_keeps_other_branches standard_proto h 0 {[ "application" := VRef 1 ]});
    try reflexivity; try discriminate.
  - repeat constructor; intros key x [_ <-]%lookup_singleton_Some; simpl; lia.
  - apply proto_closed_standard.
Defined.

Lemma grammars_agree_witness :
  let h := [Obj {[ "application" := VRef 1 ]}; Obj {[ "name" := VStr "Ada" ]}] in
  getJsonPath standard_proto h (VRef 0) "$.application.name"
  = Return (SdkPath.getByPath standard_proto h (VRef 0) "application.name").
Proof.
  intros h. apply (grammars_agree standard_proto h (VRef 0) "application.name").
  - reflexivity.
  - vm_compute. discriminate.
Defined.

End JsonPathMoreProperties.

(** ** The paths of the grammar are accepted *)

Module PathGrammarProperties.
Import Js JsonPath PathGrammar JsString JsStringFacts.












End PathGrammarProperties.

(** ** More on conditions *)

Module ConditionMoreProperties.
Import Js Conditions ConditionProperties.

Ltac choose_operator :=
  repeat match goal with
         | |- context [operator_of ?name] =>
             let op := eval vm_compute in (operator_of name) in
             change (operator_of name) with op
         end.

Section Engine.
Variable proto : kind -> string -> option value.
Variable regexp_test : string -> string -> option bool.


(** Each negated operator is the exact complement of its positive
    twin, also where the operands have the wrong types. *)
Theorem negated_operators (h : heap) field value data :
  let holds operator :=
    evaluateCondition proto regexp_test h (SimpleCondition field operator value) data in
  holds "neq" = negb (holds "eq")
  /\ holds "notContains" = negb (holds "contains")
  /\ holds "notIn" = negb (holds "in")
  /\ holds "notEmpty" = negb (holds "empty").
Proof.
  cbv zeta. cbn [evaluateCondition]. unfold evaluateSimpleCondition. choose_operator.
  split; [reflexivity|]. split; [|split; [|reflexivity]].
  - by destruct (SdkPath.getByPath proto h data field), value.
  - by destruct (as_array h value).
Qed.

(** Between two integers the ordering operators are complements of
    each other: when the field holds an integer and the comparison
    value is an integer, [gte] is the negation of [lt], [lte] that of
    [gt], and [eq] holds when both [gte] and [lte] do.  ([NaN], on
    which every ordering fails, is no value of the model.) *)
Theorem ordering_of_numbers (h : heap) field data a b :
  SdkPath.getByPath proto h data field = VNum a ->
  let holds operator :=
    evaluateCondition proto regexp_test h
      (SimpleCondition field operator (VNum b)) data in
  holds "gte" = negb (holds "lt")
  /\ holds "lte" = negb (holds "gt")
  /\ holds "eq" = holds "gte" && holds "lte".
Proof.
  intros Hfield. cbv zeta. cbn [evaluateCondition]. unfold evaluateSimpleCondition.
  choose_operator. rewrite Hfield. cbn [strict_eq].
  rewrite Z.geb_leb, Z.gtb_ltb.
  destruct (Z.eqb_spec a b), (Z.leb_spec b a), (Z.leb_spec a b), (Z.ltb_spec a b),
    (Z.ltb_spec b a); simpl; try lia; done.
Qed.

(** A condition on a field the data does not hold: [empty] and
    [notContains] hold, [eq] holds against [undefined] only, and every
    ordering, string and pattern operator fails. *)
Theorem missing_field (h : heap) field value data :
  SdkPath.getByPath proto h data field = VUndefined ->
  let holds operator :=
    evaluateCondition proto regexp_test h (SimpleCondition field operator value) data in
  holds "empty" = true /\ holds "notEmpty" = false
  /\ holds "notContains" = true
  /\ holds "eq" = match value with VUndefined => true | _ => false end
  /\ Forall (fun operator => holds operator = false)
       ["gt"; "gte"; "lt"; "lte"; "contains"; "startsWith"; "endsWith"; "matches"].
Proof.
  intros Hfield. cbv zeta. cbn [evaluateCondition]. unfold evaluateSimpleCondition.
  rewrite Hfield. choose_operator.
  split; [reflexivity|]. split; [reflexivity|]. split; [reflexivity|].
  split; [by destruct value|].
  repeat constructor.
Qed.

(** A group nested in a group of the same logic can be written out in
    its place; the empty [and] holds and the empty [or] fails. *)
Theorem nested_group (h : heap) logic before inner after data :
  logic = "and" \/ logic = "or" ->
  evaluateCondition proto regexp_test h
    (CompoundCondition logic (before ++ CompoundCondition logic inner :: after)) data
  = evaluateCondition proto regexp_test h
      (CompoundCondition logic (before ++ inner ++ after)) data
  /\ evaluateCondition proto regexp_test h (CompoundCondition "and" []) data = true
  /\ evaluateCondition proto regexp_test h (CompoundCondition "or" []) data = false.
Proof.
  intros Hlogic. split; [|split; reflexivity].
  destruct Hlogic as [-> | ->].
  - rewrite !compound_and, !forallb_app. cbn [forallb].
    by rewrite compound_and, andb_assoc.
  - rewrite !compound_or, !existsb_app. cbn [existsb].
    by rewrite compound_or, orb_assoc.
Qed.

End Engine.

Lemma ordering_of_numbers_witness :
  let h := [Obj {[ "age" := VNum 17 ]}] in
  let holds operator :=
    evaluateCondition standard_proto (fun _ _ => None) h
      (SimpleCondition "age" operator (VNum 18)) (VRef 0) in
  holds "gte" = negb (holds "lt")
  /\ holds "lte" = negb (holds "gt")
  /\ holds "eq" = holds "gte" && holds "lte".
Proof.
  intros h. apply (ordering_of_numbers standard_proto (fun _ _ => None) h "age" (VRef 0) 17).
  reflexivity.
Defined.

Lemma missing_field_witness :
  let holds operator :=
    evaluateCondition standard_proto (fun _ _ => None) [Obj ∅]
      (SimpleCondition "plan.name" operator (VStr "basic")) (VRef 0) in
  holds "empty" = true /\ holds "notEmpty" = false
  /\ holds "notContains" = true
  /\ holds "eq" = false
  /\ Forall (fun operator => holds operator = false)
       ["gt"; "gte"; "lt"; "lte"; "contains"; "startsWith"; "endsWith"; "matches"].
Proof.
  apply (missing_field standard_proto (fun _ _ => None) [Obj ∅] "plan.name"
           (VStr "basic") (VRef 0)).
  reflexivity.
Defined.

Lemma nested_group_witness :
  let A := SimpleCondition "a" "empty" VNull in
  let B := SimpleCondition "b" "notEmpty" VNull in
  evaluateCondition no_proto (fun _ _ => None) [Obj ∅]
    (CompoundCondition "or" ([A] ++ CompoundCondition "or" [B; A] :: [B])) (VRef 0)
  = evaluateCondition no_proto (fun _ _ => None) [Obj ∅]
      (CompoundCondition "or" ([A] ++ [B; A] ++ [B])) (VRef 0).
Proof.
  intros A B.
  apply (nested_group no_proto (fun _ _ => None) [Obj ∅] "or" [A] [B; A] [B] (VRef 0)).
  by right.
Defined.

End ConditionMoreProperties.

(** ** More on routing and navigation *)

Module NavigationProperties.
Import Js Routing WizardStore SessionActions StoreProperties.

Lemma findIndex_Some_inv {A : Type} (p : A -> bool) xs i :
  findIndex p xs = Some i ->
  exists before x after,
    xs = before ++ x :: after /\ length before = i
    /\ Forall (fun y => p y = false) before /\ p x = true.
Proof.
  revert i. induction xs as [|y xs IH]; intros i; simpl; [discriminate|].
  destruct (p y) eqn:Hy.
  - intros [= <-]. exists [], y, xs. by repeat split.
  - destruct (findIndex p xs) as [j|]; [|discriminate]. intros [= <-].
    destruct (IH j eq_refl) as (before & x & after & -> & <- & Hbefore & Hx).
    exists (y :: before), x, after. repeat split; try done. by constructor.
Qed.

(** [getNextStepIdLinear] finds exactly the step declared after the
    first step with the current id: it answers [next] when there is such
    a step, and [null] when the id is unknown or its first step is the
    last one. *)
Theorem linear_routing steps current :
  (forall next,
      getNextStepIdLinear steps current = Some next <-> next_in_order steps current next)
  /\ (getNextStepIdLinear steps current = None <->
      current ∉ (id <$> steps)
      \/ exists before s,
          steps = before ++ [s] /\ id s = current
          /\ Forall (fun x => id x <> current) before).
Proof.
  assert (forall next, getNextStepIdLinear steps current = Some next ->
                       next_in_order steps current next) as Hsound.
  { intros next. unfold getNextStepIdLinear.
    destruct (findIndex _ steps) as [i|] eqn:Hfind; [|discriminate].
    apply findIndex_Some_inv in Hfind as (before & s & after & -> & <- & Hbefore & Hs).
    rewrite length_app. simpl.
    destruct (Nat.eqb_spec (length before) (length before + S (length after) - 1));
      [discriminate|].
    destruct after as [|s' after]; [simpl in *; lia|].
    rewrite lookup_app_r by lia.
    replace (length before + 1 - length before) with 1 by lia. simpl. intros [= <-].
    exists before, s, s', after. split; [done|]. split; [|split; [|done]].
    - eapply Forall_impl; [exact Hbefore|]. intros x Hx. by apply String.eqb_neq.
    - by apply String.eqb_eq. }
  split.
  - intros next. split; [apply Hsound|apply getNextStepIdLinear_next].
  - split.
    + unfold getNextStepIdLinear.
      destruct (findIndex _ steps) as [i|] eqn:Hfind.
      * apply findIndex_Some_inv in Hfind as (before & s & after & -> & <- & Hbefore & Hs).
        rewrite length_app. simpl.
        destruct (Nat.eqb_spec (length before) (length before + S (length after) - 1))
          as [Hlast|Hmore].
        -- intros _. right. destruct after as [|s' after]; [|simpl in *; lia].
           exists before, s. split; [done|]. split; [by apply String.eqb_eq|].
           eapply Forall_impl; [exact Hbefore|]. intros x Hx. by apply String.eqb_neq.
        -- destruct after as [|s' after]; [simpl in *; lia|].
           rewrite lookup_app_r by lia.
           replace (length before + 1 - length before) with 1 by lia. discriminate.
      * intros _. left. intros (s & Hs & Hin)%list_elem_of_fmap.
        clear Hsound. induction steps as [|x steps IH]; [by apply elem_of_nil in Hin|].
        simpl in Hfind. destruct (String.eqb_spec (id x) current) as [|Hne]; [done|].
        destruct (findIndex _ steps); [done|].
        apply elem_of_cons in Hin as [->|Hin]; [by symmetry in Hs|]. by apply IH.
    + intros [Hunknown|(before & s & -> & Hs & Hbefore)].
      * destruct (getNextStepIdLinear steps current) as [next|] eqn:Hnext; [|done].
        destruct (Hsound next eq_refl) as (before & s & s' & after & -> & _ & Hs & _).
        exfalso. apply Hunknown. apply list_elem_of_fmap. exists s. split; [done|].
        apply elem_of_app. right. by left.
      * unfold getNextStepIdLinear. rewrite findIndex_first.
        -- rewrite length_app. simpl.
           by replace (Nat.eqb (length before) (length before + 1 - 1)) with true
             by (symmetry; apply Nat.eqb_eq; lia).
        -- eapply Forall_impl; [exact Hbefore|]. intros x Hx. by apply String.eqb_neq.
        -- by apply String.eqb_eq.
Qed.

(** [goBack] undoes a [goNext] that moved: the store is again what it
    was before the two. *)
Theorem back_undoes_next st steps current next :
  wizard st = Some steps -> currentStep st = Some current -> current <> "" ->
  getNextStepIdLinear steps current = Some next -> next <> "" ->
  goBack (fst (goNext st)) = st.
Proof.
  intros Hwizard Hcurrent Hcur Hnext Hne.
  unfold goNext. rewrite Hwizard, Hcurrent, (truthy_nonempty current Hcur).
  rewrite Hnext, (truthy_nonempty next Hne). cbn [fst].
  unfold goToStep. rewrite Hcurrent, (truthy_nonempty current Hcur).
  unfold goBack. cbn [stepHistory set_step].
  destruct (stepHistory st ++ [current]) eqn:Heq; [by destruct (stepHistory st)|].
  rewrite <- Heq, last_last, removelast_last.
  destruct st. simpl in *. by subst.
Qed.

Lemma back_undoes_next_witness :
  let st := {| wizard := Some s123; sessionId := Some "session-1";
               currentStep := Some "s2"; stepHistory := ["s1"];
               sessionState := VNull; isLoading := false; error := None |} in
  goBack (fst (goNext st)) = st.
Proof.
  intros st. apply (back_undoes_next st s123 "s2" "s3"); try reflexivity; discriminate.
Defined.

(** A request of [goNext] carries what the store holds after the call:
    its session id, its session state and its new current step; there is
    at most one request, and none when the store did not move. *)
Theorem next_persists_shown_step st :
  let st' := fst (goNext st) in
  let calls := snd (goNext st) in
  (calls = []
   \/ exists sid next,
       calls = [UpdateSession sid (sessionState st') next]
       /\ sessionId st' = Some sid /\ currentStep st' = Some next)
  /\ (st' = st -> calls = []).
Proof.
  cbv zeta. unfold goNext.
  destruct (wizard st) as [steps|]; [|by split; [left|]].
  destruct (truthy (currentStep st)) as [current|] eqn:Hcurrent; [|by split; [left|]].
  destruct (truthy (getNextStepIdLinear steps current)) as [next|] eqn:Hnext;
    [|by split; [left|]].
  cbn [fst snd]. unfold goToStep. rewrite Hcurrent.
  split.
  - destruct (truthy (sessionId st)) as [sid|] eqn:Hsid; [|by left].
    right. exists sid, next. split; [reflexivity|]. split; [|reflexivity].
    cbn [sessionId set_step]. unfold truthy in Hsid.
    destruct (sessionId st) as [sid'|]; [|discriminate].
    by destruct (String.eqb sid' ""); [discriminate|injection Hsid as ->].
  - intros Hsame. exfalso.
    assert (length (stepHistory (set_step st next (stepHistory st ++ [current])))
            = length (stepHistory st)) as Hlen by (by rewrite Hsame).
    cbn [stepHistory set_step] in Hlen. rewrite length_app in Hlen. simpl in Hlen. lia.
Qed.

(** Resuming from what [goNext] persisted lands on the step the store
    showed, with its session state, and with an empty history: [goBack]
    does nothing until the next [goNext]. *)
Theorem resume_after_next st call store :
  call ∈ snd (goNext st) ->
  let resumed := loadSession store (Answer (persisted call)) in
  currentStep resumed = currentStep (fst (goNext st))
  /\ sessionState resumed = sessionState (fst (goNext st))
  /\ sessionId resumed = sessionId (fst (goNext st))
  /\ canGoBack (stepHistory resumed) = false
  /\ goBack resumed = resumed.
Proof.
  intros Hcall. destruct (next_persists_shown_step st) as [[Hnone|Hsome] _].
  - rewrite Hnone in Hcall. by apply elem_of_nil in Hcall.
  - destruct Hsome as (sid & next & Hcalls & Hsid & Hstep).
    rewrite Hcalls in Hcall. apply list_elem_of_singleton in Hcall as ->.
    cbv zeta. cbn [loadSession persisted currentStep sessionState sessionId stepHistory
                   session_id current_step state].
    by rewrite Hsid, Hstep.
Qed.

Lemma resume_after_next_witness :
  let st := {| wizard := Some s123; sessionId := Some "session-1";
               currentStep := Some "s1"; stepHistory := [];
               sessionState := VNull; isLoading := false; error := None |} in
  let resumed :=
    loadSession initial_store (Answer (persisted (UpdateSession "session-1" VNull "s2"))) in
  currentStep resumed = currentStep (fst (goNext st))
  /\ sessionState resumed = sessionState (fst (goNext st))
  /\ sessionId resumed = sessionId (fst (goNext st))
  /\ canGoBack (stepHistory resumed) = false
  /\ goBack resumed = resumed.
Proof.
  intros st.
  apply (resume_after_next st (UpdateSession "session-1" VNull "s2") initial_store).
  vm_compute. by left.
Defined.

(** *** The track *)

Lemma press_next_on_track steps st :
  NoDup (id <$> steps) -> on_track steps st -> on_track steps (fst (goNext st)).
Proof.
  intros Hnodup (Hwizard & current & before & after & Hcurrent & Hids).
  unfold goNext. rewrite Hwizard, Hcurrent.
  destruct (truthy (Some current)) as [c|] eqn:Htruthy;
    [|by split; [|exists current, before, after]].
  assert (c = current) as ->.
  { unfold truthy in Htruthy. destruct (String.eqb current ""); congruence. }
  destruct after as [|next after].
  - (* the current step is the last one *)
    assert (getNextStepIdLinear steps current = None) as ->.
    { apply linear_routing. right.
      rewrite app_assoc in Hids.
      apply fmap_app_inv in Hids as (sb & sl & Hsb & Hsl & ->).
      symmetry in Hsl. apply fmap_cons_inv in Hsl as (s & tl & Hs & Htl & ->).
      symmetry in Htl. apply fmap_nil_inv in Htl as ->.
      exists sb, s. split; [done|]. split; [done|].
      rewrite fmap_app in Hnodup. apply NoDup_app in Hnodup as (_ & Hdisj & _).
      apply Forall_forall. intros x Hx Heq.
      apply (Hdisj (id x)); [by apply list_elem_of_fmap_2|].
      rewrite Heq. simpl. rewrite <- Hs. by left. }
    by split; [|exists current, before, []].
  - assert (getNextStepIdLinear steps current = Some next) as ->.
    { apply linear_routing.
      rewrite app_assoc in Hids.
      apply fmap_app_inv in Hids as (sb & sl & Hsb & Hsl & ->).
      symmetry in Hsl. apply fmap_cons_inv in Hsl as (s & tl & Hs & Htl & ->).
      symmetry in Htl. apply fmap_cons_inv in Htl as (s' & sa & Hs' & _ & ->).
      exists sb, s, s', sa. split; [done|]. split; [|by split].
      rewrite fmap_app in Hnodup. apply NoDup_app in Hnodup as (_ & Hdisj & _).
      apply Forall_forall. intros x Hx Heq.
      apply (Hdisj (id x)); [by apply list_elem_of_fmap_2|].
      rewrite Heq. simpl. rewrite <- Hs. by left. }
    destruct (truthy (Some next)) as [n|] eqn:Hnext;
      [|by split; [|exists current, before, (next :: after)]].
    assert (n = next) as ->.
    { unfold truthy in Hnext. destruct (String.eqb next ""); congruence. }
    cbn [fst]. unfold goToStep. rewrite Hcurrent, Htruthy.
    split; [exact Hwizard|]. exists next, before, after. split; [reflexivity|].
    cbn [stepHistory set_step]. by rewrite <- !app_assoc.
Qed.

Lemma press_back_on_track steps st :
  on_track steps st -> on_track steps (goBack st).
Proof.
  intros (Hwizard & current & before & after & Hcurrent & Hids).
  unfold goBack. destruct (stepHistory st) as [|p history] eqn:Hhistory.
  - split; [exact Hwizard|]. exists current, before, after. by rewrite Hhistory.
  - destruct (exists_last (l := p :: history) ltac:(done)) as (earlier & previous & Heq).
    rewrite Heq, last_last, removelast_last.
    split; [exact Hwizard|]. exists previous, before, (current :: after).
    split; [reflexivity|]. cbn [stepHistory set_step].
    rewrite Hids, Heq. by rewrite <- !app_assoc.
Qed.

(** Whatever buttons are pressed, in a wizard with distinct step ids the
    history followed by the current step stays a run of consecutive
    steps in declaration order: the current step is a step of the
    wizard and Back leads to the step declared just before.  A wizard
    just loaded is on the track, and so is a session resumed at one of
    the wizard's steps. *)
Theorem navigation_stays_on_track steps :
  NoDup (id <$> steps) ->
  (forall st buttons, on_track steps st -> on_track steps (foldl press st buttons))
  /\ (truthy (id <$> head steps) <> None ->
      on_track steps (loadWizard initial_store (Answer steps)))
  /\ (forall st session current,
         wizard st = Some steps -> current_step session = Some current ->
         current ∈ (id <$> steps) ->
         on_track steps (loadSession st (Answer session))).
Proof.
  intros Hnodup. split; [|split].
  - intros st buttons. revert st.
    induction buttons as [|b buttons IH]; intros st Htrack; [done|].
    simpl. apply IH. destruct b; simpl.
    + by apply press_next_on_track.
    + by apply press_back_on_track.
  - intros Hfirst. split; [reflexivity|].
    destruct steps as [|s rest]; [done|]. cbn [head fmap option_fmap option_map] in *.
    unfold truthy in *. destruct (String.eqb (id s) "") eqn:Hid; [done|].
    exists (id s), [], (id <$> rest). split; [cbn; by rewrite Hid|reflexivity].
  - intros st session current Hwizard Hstep Hin.
    split; [exact Hwizard|].
    apply list_elem_of_split in Hin as (before & after & Hids).
    exists current, before, after. by split.
Qed.

Lemma navigation_stays_on_track_witness :
  on_track s123 (foldl press (loadWizard initial_store (Answer s123)) [Next; Next; Back])
  /\ on_track s123
       (loadSession (loadWizard initial_store (Answer s123))
          (Answer {| session_id := "session-1"; current_step := Some "s2";
                     state := VNull |})).
Proof.
  destruct (navigation_stays_on_track s123) as (Hpress & Hfresh & Hresumed).
  - apply (bool_decide_unpack _). by vm_compute.
  - split.
    + apply Hpress, Hfresh. discriminate.
    + apply (Hresumed _ _ "s2"); try reflexivity.
      apply (bool_decide_unpack _). by vm_compute.
Defined.

End NavigationProperties.

(** ** More on batches of patches *)

Module BatchProperties.
Import Js JsonPath WizardStore Batch JsFacts JsonPathFacts JsonPathMoreProperties.

Section Engine.
Variable proto : kind -> string -> option Js.value.

(** How one [setJsonPath] ends. *)
Lemma setJsonPath_cases (h : heap) t p v :
  (accepted p /\ exists t' h', setJsonPath proto h t p v = Return (t', h')
                               /\ h `prefix_of` h')
  \/ (is_root p = false /\ exists e, validatePath p = Some e
                                     /\ setJsonPath proto h t p v = Throw e).
Proof.
  destruct (is_root p) eqn:Hroot.
  - left. split; [by left|]. exists v, h. unfold setJsonPath. by rewrite Hroot.
  - destruct (validatePath p) as [e|] eqn:Hvalid.
    + right. split; [done|]. exists e. unfold setJsonPath. by rewrite Hroot, Hvalid.
    + left. split; [by right|].
      destruct (setJsonPath_root proto h t p v Hvalid Hroot) as (h' & x & Hset & Hpre & _).
      by exists (VRef (length h)), h'.
Qed.

Lemma accepted_not_rejected p e : accepted p -> is_root p = false -> validatePath p <> Some e.
Proof. intros [Hroot|Hvalid] Hnot; congruence. Qed.

Lemma apply_loop_cases updates :
  forall (h : heap) s,
    (Forall (fun u => accepted (path u)) updates
     /\ exists s' h', apply_loop proto h s updates = Return (s', h') /\ h `prefix_of` h')
    \/ (exists before u after e,
           updates = before ++ u :: after
           /\ Forall (fun u => accepted (path u)) before
           /\ is_root (path u) = false /\ validatePath (path u) = Some e
           /\ apply_loop proto h s updates = Throw e).
Proof.
  induction updates as [|u rest IH]; intros h s.
  - left. split; [constructor|]. by exists s, h.
  - cbn [apply_loop].
    destruct (setJsonPath_cases h s (path u) (value u))
      as [(Hacc & s1 & h1 & Hset & Hpre)|(Hroot & e & Hvalid & Hset)]; rewrite Hset.
    + destruct (IH h1 s1)
        as [(Hrest & s' & h' & Hloop & Hpre')
           |(before & u' & after & e & -> & Hbefore & Hroot & Hvalid & Hloop)].
      * left. split; [by constructor|]. exists s', h'. split; [done|].
        by transitivity h1.
      * right. exists (u :: before), u', after, e. repeat split; try done.
        by constructor.
    + right. exists [], u, rest, e. repeat split; try done.
Qed.

(** A batch is applied as a whole or not at all: [applyStateUpdates]
    returns when every path of the batch is the root or is accepted by
    [validatePath], and otherwise throws the error of the first path
    that is rejected, the store staying as it was. *)
Theorem batch_all_or_nothing (h : heap) st updates :
  (Forall (fun u => accepted (path u)) updates <->
   exists st' h', applyStateUpdates proto h st updates = Return (st', h'))
  /\ (forall e,
         applyStateUpdates proto h st updates = Throw e <->
         exists before u after,
           updates = before ++ u :: after
           /\ Forall (fun u => accepted (path u)) before
           /\ is_root (path u) = false /\ validatePath (path u) = Some e)
  /\ applyStateUpdates proto h st updates <> Unmodelled.
Proof.
  unfold applyStateUpdates.
  destruct (apply_loop_cases updates h (sessionState st))
    as [(Hall & s' & h' & Hloop & _)
       |(before & u & after & e & Hsplit & Hbefore & Hroot & Hvalid & Hloop)];
    rewrite Hloop.
  - split; [|split; [|done]].
    + split; [eauto|done].
    + intros e. split; [done|].
      intros (before & u & after & -> & _ & Hroot & Hvalid).
      apply Forall_app in Hall as [_ Hu]. apply Forall_inv in Hu.
      by destruct (accepted_not_rejected _ e Hu Hroot).
  - split; [|split; [|done]].
    + split; [|by intros (? & ? & ?)].
      intros Hall. rewrite Hsplit in Hall.
      apply Forall_app in Hall as [_ Hu]. apply Forall_inv in Hu.
      by destruct (accepted_not_rejected _ e Hu Hroot).
    + intros e'. split.
      * intros [= <-]. by exists before, u, after.
      * intros (before' & u' & after' & Hsplit' & Hbefore' & Hroot' & Hvalid').
        f_equal.
        assert (before = before' /\ u = u') as [-> ->]; [|congruence].
        clear Hloop. subst updates. revert before' Hsplit' Hbefore'.
        induction before as [|b before IH]; intros [|b' before'] Heq Hacc; simpl in Heq.
        -- by injection Heq as -> _.
        -- injection Heq as -> _. apply Forall_inv in Hacc.
           by destruct (accepted_not_rejected _ e Hacc Hroot).
        -- injection Heq as -> _. apply Forall_inv in Hbefore.
           by destruct (accepted_not_rejected _ e' Hbefore Hroot').
        -- injection Heq as -> Heq. apply Forall_cons in Hbefore as [_ Hbefore].
           apply Forall_cons in Hacc as [_ Hacc].
           destruct (IH Hbefore before' Heq Hacc) as [-> ->]. done.
Qed.

(** A batch writes into new objects only: the session state the store
    held before reads the same after the batch, and the batch changes
    no other field of the store. *)
Theorem batch_keeps_old_state (h : heap) st updates st' h' :
  closed_heap h -> closed_value (length h) (sessionState st) ->
  applyStateUpdates proto h st updates = Return (st', h') ->
  preserves h (sessionState st) h'
  /\ st' = set_sessionState st (sessionState st').
Proof.
  intros Hh Hst. unfold applyStateUpdates.
  destruct (apply_loop_cases updates h (sessionState st))
    as [(_ & s1 & h1 & Hloop & Hpre)|(? & ? & ? & e & _ & _ & _ & _ & Hloop)];
    rewrite Hloop; [|discriminate].
  intros [= <- <-]. split; [by apply preserves_of_prefix|reflexivity].
Qed.

End Engine.

Lemma batch_keeps_old_state_witness :
  let st := {| wizard := None; sessionId := None; currentStep := None;
               stepHistory := []; sessionState := VRef 0;
               isLoading := false; error := None |} in
  let h := [Obj {[ "application" := VRef 1 ]}; Obj ∅] in
  let updates := [ {| path := "$.application.plan"; value := VStr "basic" |} ] in
  exists st' h',
    applyStateUpdates standard_proto h st updates = Return (st', h')
    /\ preserves h (VRef 0) h' /\ st' = set_sessionState st (sessionState st').
Proof.
  intros st h updates.
  destruct (applyStateUpdates standard_proto h st updates) as [[st' h']| |] eqn:Hbatch;
    [|vm_compute in Hbatch; discriminate..].
  exists st', h'. split; [reflexivity|].
  apply (batch_keeps_old_state standard_proto h st updates st' h'); [| |exact Hbatch].
  - repeat constructor; [intros key x [_ <-]%lookup_singleton_Some; simpl; lia|].
    intros key x Hx. by apply lookup_empty_Some in Hx.
  - simpl. lia.
Defined.

End BatchProperties.

(** ** Loading the pages of a wizard *)

Module PageLoadingProperties.
Import Js Routing PageLoader PageLoading.

Lemma add_refs_spec steps :
  forall refs,
    NoDup refs ->
    NoDup (foldl add_ref refs steps)
    /\ forall ref, ref ∈ foldl add_ref refs steps <-> ref ∈ refs \/ referenced steps ref.
Proof.
  induction steps as [|step steps IH]; intros refs Hnodup; simpl.
  - split; [done|]. intros ref. split; [by left|].
    intros [H|(step & Hin & _)]; [done|by apply elem_of_nil in Hin].
  - assert (NoDup (add_ref refs step)
            /\ forall ref, ref ∈ add_ref refs step
                           <-> ref ∈ refs \/ WizardStore.truthy (pageRef step) = Some ref)
      as [Hnodup' Hadd].
    { unfold add_ref. destruct (WizardStore.truthy (pageRef step)) as [r|].
      - case_bool_decide as Hin.
        + split; [done|]. intros ref. split; [by left|].
          intros [H|[= <-]]; done.
        + split.
          * apply NoDup_app. split; [done|]. split; [|apply NoDup_singleton].
            intros x Hx ->%list_elem_of_singleton. done.
          * intros ref. rewrite elem_of_app, list_elem_of_singleton.
            split; intros [H|H]; auto; [right; by subst|right; by injection H].
      - split; [done|]. intros ref. split; [by left|]. by intros [H|H]. }
    destruct (IH _ Hnodup') as [Hres Hmem]. split; [done|].
    intros ref. rewrite Hmem, Hadd. split.
    + intros [[H|H]|(s & Hin & Hs)]; [by left| |].
      * right. exists step. split; [by left|done].
      * right. exists s. split; [by right|done].
    + intros [H|(s & Hin & Hs)]; [by left; left|].
      apply elem_of_cons in Hin as [->|Hin]; [by left; right|].
      right. by exists s.
Qed.

Lemma pageRefs_spec steps :
  NoDup (pageRefs steps) /\ forall ref, ref ∈ pageRefs steps <-> referenced steps ref.
Proof.
  destruct (add_refs_spec steps [] (NoDup_nil_2)) as [Hnodup Hmem].
  split; [exact Hnodup|]. intros ref. rewrite (Hmem ref). split; [|by right].
  intros [H|H]; [by apply elem_of_nil in H|done].
Qed.

Section Api.
Variable PageDefinition : Type.
Variable loadPageVersion : string -> string -> option PageDefinition.

Lemma load_ref_Some ref entry :
  load_ref loadPageVersion ref = Some entry ->
  exists pageKey version page,
    parsePageRef ref = PageRef pageKey version
    /\ loadPageVersion pageKey version = Some page
    /\ entry = (ref, page).
Proof.
  unfold load_ref. destruct (parsePageRef ref) as [pageKey version|]; [|done].
  destruct (loadPageVersion pageKey version) as [page|] eqn:Hpage; [|done].
  intros [= <-]. by exists pageKey, version, page.
Qed.

Lemma loaded_entries refs entries :
  Forall2 (fun ref entry => load_ref loadPageVersion ref = Some entry) refs entries ->
  entries.*1 = refs.
Proof.
  induction 1 as [|ref entry refs entries Hload _ IH]; [done|].
  apply load_ref_Some in Hload as (? & ? & ? & _ & _ & ->). by rewrite fmap_cons, IH.
Qed.

(** When [loadWizardPages] is fulfilled, the map holds, for every step
    with a page reference, the page the API returned for the key and
    the version the reference pins, and [getPageForStep] finds it; the
    map has no other entries. *)
Theorem pages_are_pinned proto steps pages :
  loadWizardPages loadPageVersion steps = Some pages ->
  (forall step ref,
      step ∈ steps -> WizardStore.truthy (pageRef step) = Some ref ->
      exists pageKey version page,
        parsePageRef ref = PageRef pageKey version
        /\ loadPageVersion pageKey version = Some page
        /\ getPageForStep proto step pages = Found page)
  /\ (forall ref, is_Some (pages !! ref) <-> referenced steps ref).
Proof.
  unfold loadWizardPages. intros Hload.
  destruct (mapM (load_ref loadPageVersion) (pageRefs steps)) as [entries|] eqn:Hmap;
    [|discriminate].
  injection Hload as <-. apply mapM_Some_1 in Hmap.
  destruct (pageRefs_spec steps) as [Hnodup Hmem].
  pose proof (loaded_entries _ _ Hmap) as Hkeys.
  assert (forall ref, referenced steps ref ->
            exists pageKey version page,
              parsePageRef ref = PageRef pageKey version
              /\ loadPageVersion pageKey version = Some page
              /\ (list_to_map entries : gmap string PageDefinition) !! ref = Some page)
    as Hfound.
  { intros ref Href. apply Hmem in Href.
    apply list_elem_of_lookup in Href as [i Hi].
    destruct (Forall2_lookup_l _ _ _ _ _ Hmap Hi) as (entry & Hentry & Hloaded).
    apply load_ref_Some in Hloaded as (pageKey & version & page & Hparse & Hpage & ->).
    exists pageKey, version, page. split; [done|]. split; [done|].
    apply elem_of_list_to_map_1; [by rewrite Hkeys|].
    by eapply list_elem_of_lookup_2. }
  split.
  - intros step ref Hstep Href.
    destruct (Hfound ref) as (pageKey & version & page & Hparse & Hpage & Hlookup);
      [by exists step|].
    exists pageKey, version, page. split; [done|]. split; [done|].
    unfold getPageForStep. by rewrite Href, Hlookup.
  - intros ref. split.
    + intros [page Hpage]. apply Hmem. rewrite <- Hkeys.
      apply elem_of_list_to_map_2 in Hpage.
      apply list_elem_of_fmap. by exists (ref, page).
    + intros Href. destruct (Hfound ref Href) as (? & ? & page & _ & _ & Hlookup).
      by exists page.
Qed.

(** [loadWizardPages] is rejected exactly when some step has a page
    reference that does not parse or that the API does not deliver: one
    failure fails the whole load. *)
Theorem pages_fail_together steps :
  loadWizardPages loadPageVersion steps = None <->
  exists ref,
    referenced steps ref
    /\ (parsePageRef ref = InvalidPageRef
        \/ exists pageKey version,
            parsePageRef ref = PageRef pageKey version
            /\ loadPageVersion pageKey version = None).
Proof.
  unfold loadWizardPages. destruct (pageRefs_spec steps) as [_ Hmem]. split.
  - destruct (mapM (load_ref loadPageVersion) (pageRefs steps)) as [entries|] eqn:Hmap;
      [discriminate|]. intros _.
    apply mapM_None_1 in Hmap. apply Exists_exists in Hmap as (ref & Hin & Hfail).
    exists ref. split; [by apply Hmem|].
    unfold load_ref in Hfail.
    destruct (parsePageRef ref) as [pageKey version|]; [|by left].
    right. exists pageKey, version. split; [done|].
    by destruct (loadPageVersion pageKey version).
  - intros (ref & Href & Hfail).
    rewrite (mapM_None_2 (load_ref loadPageVersion) (pageRefs steps)); [done|].
    apply Exists_exists. exists ref. split; [by apply Hmem|].
    unfold load_ref. destruct Hfail as [->|(pageKey & version & -> & ->)]; done.
Qed.

End Api.

Lemma pages_are_pinned_witness :
  let api := fun (pageKey version : string) =>
               if String.eqb pageKey "page.travel.selectPlan" && String.eqb version "v1"
               then Some 7 else None in
  let step := {| id := "s1"; pageRef := Some "page.travel.selectPlan@v1" |} in
  exists pageKey version page,
    parsePageRef "page.travel.selectPlan@v1" = PageRef pageKey version
    /\ api pageKey version = Some page
    /\ getPageForStep standard_proto step {[ "page.travel.selectPlan@v1" := 7 ]} = Found page.
Proof.
  intros api step.
  destruct (pages_are_pinned nat api standard_proto
              [step; {| id := "s2"; pageRef := None |}]
              {[ "page.travel.selectPlan@v1" := 7 ]}) as [Hpinned _].
  - reflexivity.
  - apply (Hpinned step); [by left|reflexivity].
Defined.

End PageLoadingProperties.

(** ** Field validation *)

Module FieldValidationProperties.
Import Js FieldValidation ValidatorsCompared.

Ltac split_cases :=
  repeat match goal with
         | |- context [Z.ltb ?a ?b] => destruct (Z.ltb a b)
         | |- context [Z.gtb ?a ?b] => destruct (Z.gtb a b)
         end;
  simpl.

Section Engine.
Variable email_test : string -> bool.
Variable regexp_test : string -> string -> option bool.
Variable show : Z -> string.


Lemma validateField_valid field v r :
  validateField email_test regexp_test show field v = Some r ->
  valid r = is_empty_list (errors r).
Proof.
  unfold validateField. intros Hr.
  apply bind_Some in Hr as (checks & _ & [= <-]). done.
Qed.

Lemma is_empty_list_app {A} (l k : list A) :
  is_empty_list (l ++ k) = is_empty_list l && is_empty_list k.
Proof. by destruct l. Qed.

Lemma step_errors_Some proto h fields formData allErrors :
  step_errors email_test regexp_test show proto h fields formData = Some allErrors ->
  exists results,
    Forall2 (fun field r =>
               validateField email_test regexp_test show field
                 (get_prop proto h formData (id field)) = Some r)
      fields results
    /\ allErrors = concat (errors <$> results).
Proof.
  revert allErrors. induction fields as [|field rest IH]; intros allErrors Hstep.
  - injection Hstep as <-. exists []. split; [constructor|done].
  - simpl in Hstep.
    apply bind_Some in Hstep as (result & Hresult & Hstep).
    apply bind_Some in Hstep as (others & Hothers & [= <-]).
    destruct (IH _ Hothers) as (results & Hall & ->).
    exists (result :: results). split; [by constructor|done].
Qed.

Lemma step_errors_None proto h fields formData :
  step_errors email_test regexp_test show proto h fields formData = None ->
  exists field,
    field ∈ fields
    /\ validateField email_test regexp_test show field
         (get_prop proto h formData (id field)) = None.
Proof.
  induction fields as [|field rest IH]; [done|]. simpl. intros Hstep.
  destruct (validateField email_test regexp_test show field _) as [result|] eqn:Hresult.
  - simpl in Hstep.
    destruct (step_errors _ _ _ _ _ rest _) as [others|] eqn:Hothers; [done|].
    destruct (IH eq_refl) as (bad & Hin & Hbad).
    exists bad. split; [by right|done].
  - exists field. split; [by left|done].
Qed.

Lemma all_valid results :
  Forall (fun r => valid r = is_empty_list (errors r)) results ->
  is_empty_list (concat (errors <$> results)) = forallb valid results.
Proof.
  induction 1 as [|r results Hr _ IH]; [done|].
  rewrite fmap_cons. change (concat (?x :: ?l)) with (x ++ concat l).
  rewrite is_empty_list_app, IH. simpl. by rewrite Hr.
Qed.

(** [validateStep] checks every field against its own property of the
    form data and concatenates the errors in the order of the fields;
    the step is valid exactly when every field is; it throws exactly
    when the check of some field throws. *)
Theorem step_collects_fields proto h fields formData :
  match validateStep email_test regexp_test show proto h fields formData with
  | Some r =>
      exists results,
        Forall2 (fun field r' =>
                   validateField email_test regexp_test show field
                     (get_prop proto h formData (id field)) = Some r')
          fields results
        /\ errors r = concat (errors <$> results)
        /\ valid r = forallb valid results
  | None =>
      exists field,
        field ∈ fields
        /\ validateField email_test regexp_test show field
             (get_prop proto h formData (id field)) = None
  end.
Proof.
  unfold validateStep.
  destruct (step_errors _ _ _ _ _ fields _) as [allErrors|] eqn:Hstep; simpl.
  - destruct (step_errors_Some _ _ _ _ _ Hstep) as (results & Hall & ->).
    exists results. split; [done|]. split; [done|].
    apply all_valid.
    clear Hstep. induction Hall as [|field r ? ? Hr _ IH]; constructor; [|done].
    by apply validateField_valid in Hr.
  - by apply step_errors_None.
Qed.

(** A value that is not blank and not of the JavaScript type the field
    type checks (a string in a number field, a number in a text or
    email field, any value in a field of another type) is valid,
    whatever the constraints and whether or not the field is
    required. *)
Theorem unchecked_type_is_valid field v :
  is_blank v = false ->
  checked_type (type field) v = false ->
  validateField email_test regexp_test show field v = Some {| valid := true; errors := [] |}.
Proof.
  intros Hblank Htype. unfold validateField, checked_type in *.
  rewrite Hblank, andb_false_r.
  destruct (String.eqb (type field) "email") eqn:Hemail.
  { apply String.eqb_eq in Hemail. rewrite Hemail in Htype.
    change (String.eqb "email" "number") with false in Htype.
    change (String.eqb "email" "email") with true in Htype.
    by destruct v. }
  destruct (String.eqb (type field) "number"); [by destruct v|].
  rewrite <- orb_assoc in Htype. simpl in Htype.
  destruct (String.eqb (type field) "text" || String.eqb (type field) "textarea");
    [by destruct v|done].
Qed.

(** An integer in a number field is valid exactly when it lies within
    the bounds the field gives, both ends included; the pattern and the
    length bounds play no part.  ([NaN], which passes both tests of the
    source, is no value of the model.) *)
Theorem number_within_bounds field n :
  type field = "number" ->
  exists r,
    validateField email_test regexp_test show field (VNum n) = Some r
    /\ (valid r = true <->
        (forall m, min (constraints field) = Some m -> (m <= n)%Z)
        /\ (forall m, max (constraints field) = Some m -> (n <= m)%Z)).
Proof.
  intros Htype. unfold validateField. rewrite Htype. simpl.
  rewrite andb_false_r. simpl.
  change (String.eqb "number" "email") with false.
  change (String.eqb "number" "number") with true. cbv iota.
  eexists. split; [reflexivity|]. simpl.
  destruct (min (constraints field)) as [lo|], (max (constraints field)) as [hi|].
  all: repeat match goal with
              | |- context [Z.ltb ?a ?b] => destruct (Z.ltb_spec a b)
              | |- context [Z.gtb ?a ?b] => rewrite (Z.gtb_ltb a b)
              end; simpl.
  all: split; [intros ?; try done; split; intros ? [= <-]; lia|].
  all: intros [Hlo Hhi]; try done.
  all: try (specialize (Hlo _ eq_refl)); try (specialize (Hhi _ eq_refl)); lia.
Qed.

(** A non-empty string in a text field is valid exactly when its length
    lies within the length bounds and it matches the pattern, if the
    field has a non-empty one. *)
Theorem text_within_constraints field s r :
  String.eqb (type field) "text" || String.eqb (type field) "textarea" = true ->
  s <> "" ->
  validateField email_test regexp_test show field (VStr s) = Some r ->
  valid r = true <->
    (forall m, minLength (constraints field) = Some m ->
               (m <= Z.of_nat (String.length s))%Z)
    /\ (forall m, maxLength (constraints field) = Some m ->
                  (Z.of_nat (String.length s) <= m)%Z)
    /\ (forall p, nonempty (pattern (constraints field)) = Some p ->
                  regexp_test p s = Some true).
Proof.
  intros Htype Hs. unfold validateField.
  assert (Hblank : is_blank (VStr s) = false).
  { simpl. by apply String.eqb_neq. }
  rewrite Hblank, andb_false_r.
  assert (String.eqb (type field) "email" = false) as ->.
  { apply orb_true_iff in Htype as [->%String.eqb_eq | ->%String.eqb_eq]; done. }
  assert (String.eqb (type field) "number" = false) as ->.
  { apply orb_true_iff in Htype as [->%String.eqb_eq | ->%String.eqb_eq]; done. }
  rewrite Htype. simpl.
  destruct (minLength (constraints field)) as [lo|],
           (maxLength (constraints field)) as [hi|],
           (nonempty (pattern (constraints field))) as [p|];
    [destruct (regexp_test p s) as [[]|] eqn:Hre| |destruct (regexp_test p s) as [[]|] eqn:Hre|
    |destruct (regexp_test p s) as [[]|] eqn:Hre| |destruct (regexp_test p s) as [[]|] eqn:Hre|];
    simpl; try done.
  all: repeat match goal with
              | |- context [Z.ltb ?a ?b] => destruct (Z.ltb_spec a b)
              | |- context [Z.gtb ?a ?b] => rewrite (Z.gtb_ltb a b)
              end; simpl.
  all: intros [= <-]; simpl.
  all: split;
    [intros ?; try done; refine (conj _ (conj _ _)); intros ? [= <-]; (lia || done)|].
  all: intros (Hlo & Hhi & Hp); try done.
  all: try (specialize (Hlo _ eq_refl)); try (specialize (Hhi _ eq_refl));
    try (specialize (Hp _ eq_refl)); try lia; congruence.
Qed.

(** The runtime's [validateField] and the SDK's [validateFieldValue]
    give the same verdict on a field with the same constraints: they
    throw together, and otherwise agree on [valid] and on the number
    of errors (the texts differ). *)
Theorem validators_agree field v :
  same_verdict field
    (validateField email_test regexp_test show field v)
    (validateFieldValue email_test regexp_test show (as_definition field) v).
Proof.
  destruct field as [i t l r [mn mx mnl mxl p pm]].
  unfold same_verdict, validateField, validateFieldValue, as_definition.
  cbn [id type label required constraints def_id def_type def_label def_required
       validation default min max minLength maxLength pattern patternMessage].
  destruct r, (is_blank v) eqn:Hblank; cbn [andb];
    [by repeat constructor|..].
  2: by repeat constructor.
  all: destruct (String.eqb t "email");
    [destruct v; simpl; try destruct (email_test _); by repeat constructor|].
  all: destruct (String.eqb t "number");
    [destruct v, mn, mx; simpl; split_cases; by repeat constructor|].
  all: destruct (String.eqb t "text" || String.eqb t "textarea");
    [|by repeat constructor].
  all: destruct v; try (by repeat constructor).
  all: simpl; destruct (nonempty p) as [p'|]; [destruct (regexp_test p' s) as [[]|]|];
    destruct mnl, mxl; simpl; split_cases; by repeat constructor.
Qed.

End Engine.

Lemma unchecked_type_is_valid_witness :
  validateField (fun _ => false) (fun _ _ => Some false) pretty
    {| id := "age"; type := "number"; label := "Age"; required := true;
       constraints := {| min := Some 18%Z; max := Some 120%Z; minLength := None;
                         maxLength := None; pattern := None; patternMessage := None |} |}
    (VStr "abc")
  = Some {| valid := true; errors := [] |}.
Proof.
  apply unchecked_type_is_valid; reflexivity.
Defined.

Lemma number_within_bounds_witness :
  exists r,
    validateField (fun _ => false) (fun _ _ => Some false) pretty
      {| id := "age"; type := "number"; label := "Age"; required := true;
         constraints := {| min := Some 18%Z; max := Some 120%Z; minLength := None;
                           maxLength := None; pattern := None;
                           patternMessage := None |} |}
      (VNum 18) = Some r
    /\ (valid r = true <->
        (forall m, Some 18%Z = Some m -> (m <= 18)%Z)
        /\ (forall m, Some 120%Z = Some m -> (18 <= m)%Z)).
Proof.
  apply (number_within_bounds (fun _ => false) (fun _ _ => Some false) pretty
           {| id := "age"; type := "number"; label := "Age"; required := true;
              constraints := {| min := Some 18%Z; max := Some 120%Z; minLength := None;
                                maxLength := None; pattern := None;
                                patternMessage := None |} |} 18).
  reflexivity.
Defined.

Lemma text_within_constraints_witness :
  valid {| valid := false; errors := ["Must be at least 3 characters"] |} = true <->
    (forall m, Some 3%Z = Some m -> (m <= Z.of_nat (String.length "Al"))%Z)
    /\ (forall m, @None Z = Some m -> (Z.of_nat (String.length "Al") <= m)%Z)
    /\ (forall p, Some "^[A-Z]" = Some p -> (fun _ _ : string => Some true) p "Al" = Some true).
Proof.
  apply (text_within_constraints (fun _ => false) (fun _ _ => Some true) pretty
           {| id := "name"; type := "text"; label := "Name"; required := false;
              constraints := {| min := None; max := None; minLength := Some 3%Z;
                                maxLength := None; pattern := Some "^[A-Z]";
                                patternMessage := None |} |} "Al").
  - reflexivity.
  - discriminate.
  - reflexivity.
Defined.

End FieldValidationProperties.
